(** * Camera service: local image queue, upload ledger, sync engine and
      GPIO edge detector

    A shallow embedding of [local_storage.py], of the upload paths and
    callbacks of [web_app.py], of [gpio_service.py] and of the command
    parsing of [trigger_server.py], followed by the properties of the
    specification that concern them and by further properties of the
    code.

    Conventions.  Python objects mutated in place become explicit state:
    the [LocalStorageManager] record is threaded through every method
    together with a [world] (the files on disk, the ledger file, the clock).
    A Python call that may raise returns an [outcome]; a [try]/[except]
    becomes a match on it.  Python integers are [Z], sets are [gset],
    dictionaries are [gmap], lists are [list]. *)

From stdpp Require Import gmap strings list sorting.
From Equations Require Import Equations.
From Stdlib Require Import Ascii.

Local Open Scope string_scope.
Local Open Scope list_scope.
Local Open Scope Z_scope.

(** ** Python runtime: exceptions, strings, [os.path] *)

Module Py.

Inductive exn :=
| OSError
| FileNotFoundError
| FileExistsError
| IndexError
| AttributeError
| ValueError.

Inductive outcome (A : Type) :=
| Returns (a : A)
| Raises (e : exn).
Arguments Returns {A} a.
Arguments Raises {A} e.

Definition returned {A} (o : outcome A) : bool :=
  match o with Returns _ => true | Raises _ => false end.

(** [s.startswith(p)] and [s.endswith(p)]. *)
Definition startswith (s p : string) : bool := String.prefix p s.
Definition endswith (s p : string) : bool :=
  String.prefix (String.rev p) (String.rev s).

(** [str.lower] on the ASCII letters. *)
Definition lower_ascii (c : Ascii.ascii) : Ascii.ascii :=
  let n := Ascii.nat_of_ascii c in
  if ((65 <=? n) && (n <=? 90))%nat then Ascii.ascii_of_nat (n + 32) else c.

Fixpoint lower (s : string) : string :=
  match s with
  | EmptyString => EmptyString
  | String c r => String (lower_ascii c) (lower r)
  end.

Fixpoint has_sep (s : string) : bool :=
  match s with
  | EmptyString => false
  | String c r => if Ascii.eqb c "/"%char then true else has_sep r
  end.

(** [os.path.basename]: what follows the last ['/']. *)
Fixpoint basename (p : string) : string :=
  match p with
  | EmptyString => EmptyString
  | String c r =>
      if has_sep r then basename r
      else if Ascii.eqb c "/"%char then r else p
  end.

(** [os.path.join(a, b)] of [posixpath]. *)
Definition join (a b : string) : string :=
  if startswith b "/" then b
  else if String.eqb a EmptyString || endswith a "/" then a +:+ b
  else a +:+ "/" +:+ b.

(** [l.pop()]: the last element and the list without it; [None] stands
    for the [IndexError] of an empty list. *)
Definition list_pop {A} (l : list A) : option (A * list A) :=
  match last l with
  | Some x => Some (x, removelast l)
  | None => None
  end.

Definition inspect {A : Type} (x : A) : { y : A | x = y } :=
  exist _ x eq_refl.

End Py.
Import Py.


(** ** The world outside the process *)

(** What [os.stat] reports of a file.  Time stamps are kept as integers. *)
Record stat_result := {
  st_size : Z;
  st_ctime : Z;
  st_mtime : Z
}.

(** [w_files] maps the path of every regular file other than the ledger
    to its [stat]; directories are not recorded (a directory exists unless
    a regular file sits at its path).  [w_ledger] is the content of
    [upload_status.json], [None] when the file is absent.  [w_now] is what
    [datetime.now().isoformat()] returns at the moment of the call.  [w_ledger_io] is the number of
    calls on the ledger file that the storage medium still accepts before
    it answers [OSError] ([None]: no limit). *)
Record world := {
  w_files : gmap string stat_result;
  w_ledger : option string;
  w_now : string;
  w_ledger_io : option nat
}.

Definition set_files (fs : gmap string stat_result) (w : world) : world :=
  {| w_files := fs; w_ledger := w_ledger w; w_now := w_now w;
     w_ledger_io := w_ledger_io w |}.

(** The clock moves between two calls: [set_now t w] is [w] at a moment
    when [datetime.now().isoformat()] returns [t]. *)
Definition set_now (t : string) (w : world) : world :=
  {| w_files := w_files w; w_ledger := w_ledger w; w_now := t;
     w_ledger_io := w_ledger_io w |}.

Module Os.

Definition path_exists (w : world) (p : string) : bool :=
  bool_decide (is_Some (w_files w !! p)).

Definition stat (w : world) (p : string) : outcome stat_result :=
  match w_files w !! p with
  | Some s => Returns s
  | None => Raises FileNotFoundError
  end.

(** [os.makedirs(d, exist_ok=True)]. *)
Definition makedirs (w : world) (d : string) : outcome unit :=
  if path_exists w d then Raises FileExistsError else Returns tt.

(** [shutil.move(src, dst)] between regular files.  Of the [stat] kept
    at the destination, the size and the modification time are those of
    the moved file. *)
Definition move (w : world) (src dst : string) : outcome world :=
  match w_files w !! src with
  | Some s => Returns (set_files (<[dst := s]> (delete src (w_files w))) w)
  | None => Raises FileNotFoundError
  end.

Definition remove (w : world) (p : string) : outcome world :=
  match w_files w !! p with
  | Some _ => Returns (set_files (delete p (w_files w)) w)
  | None => Raises FileNotFoundError
  end.

(** The name of [p] inside directory [d], when [p] lies directly in it. *)
Fixpoint strip_prefix (pre s : string) : option string :=
  match pre, s with
  | EmptyString, _ => Some s
  | String a pre', String b s' =>
      if Ascii.eqb a b then strip_prefix pre' s' else None
  | String _ _, EmptyString => None
  end.

Definition child_name (d p : string) : option string :=
  match strip_prefix (join d EmptyString) p with
  | Some name =>
      if has_sep name || String.eqb name EmptyString then None else Some name
  | None => None
  end.

(** [os.listdir(d)], regular files only, in the order of the map. *)
Definition listdir (w : world) (d : string) : list string :=
  omap (fun kv => child_name d (fst kv)) (map_to_list (w_files w)).

End Os.

(** ** [json.dump(data, f, indent=2)] for the ledger document *)

Module Json.

Definition chr (n : nat) : string := String (ascii_of_nat n) EmptyString.

Definition hex_digit (n : nat) : string :=
  String.substring n 1 "0123456789abcdef".

(** [json.encoder.encode_basestring_ascii], one character at a time:
    the quote and the backslash are escaped, the printable characters
    stand for themselves, every other code is written [\u00xx] or by
    its short escape. *)
Definition escape_char (c : ascii) : string :=
  let n := nat_of_ascii c in
  if (n =? 92)%nat then "\\"
  else if (n =? 34)%nat then "\" +:+ chr 34
  else if (n =? 10)%nat then "\n"
  else if (n =? 13)%nat then "\r"
  else if (n =? 9)%nat then "\t"
  else if (n =? 12)%nat then "\f"
  else if (n =? 8)%nat then "\b"
  else if ((32 <=? n) && (n <=? 126))%nat then String c EmptyString
  else "\u00" +:+ hex_digit (n / 16) +:+ hex_digit (n mod 16).

Fixpoint escape (s : string) : string :=
  match s with
  | EmptyString => EmptyString
  | String c r => escape_char c +:+ escape r
  end.

Definition encode_str (s : string) : string :=
  chr 34 +:+ escape s +:+ chr 34.

Fixpoint spaces (n : nat) : string :=
  match n with O => EmptyString | S k => " " +:+ spaces k end.

(** ['\n' + indent * level] with [indent = 2] spaces. *)
Definition newline_indent (level : nat) : string :=
  chr 10 +:+ spaces (2 * level).

(** The chunks [_iterencode_list] yields for a list of strings nested
    one level deep. *)
Definition iterencode_list (l : list string) : list string :=
  match l with
  | [] => ["[]"]
  | v :: rest =>
      ("[" +:+ newline_indent 2 +:+ encode_str v)
        :: map (fun x => "," +:+ newline_indent 2 +:+ encode_str x) rest
        ++ [newline_indent 1; "]"]
  end.

(** The chunks [json.dump] hands to [f.write], in order, for
    [{'uploaded_images': names, 'last_updated': stamp}]. *)
Definition dump_chunks (names : list string) (stamp : string) : list string :=
  ["{"; newline_indent 1; encode_str "uploaded_images"; ": "]
    ++ iterencode_list names
    ++ ["," +:+ newline_indent 1; encode_str "last_updated"; ": ";
        encode_str stamp; newline_indent 0; "}"].

Definition concat_chunks (chunks : list string) : string :=
  foldr String.append EmptyString chunks.

Definition dumps (names : list string) (stamp : string) : string :=
  concat_chunks (dump_chunks names stamp).

End Json.

(** ** [local_storage.py] *)

Module LocalStorage.

Record image_info := {
  filename : string;
  filepath : string;
  size : Z;
  created : Z;
  modified : Z
}.

Record LocalStorageManager := {
  max_images : Z;
  storage_dir : string;
  images : list image_info;
  uploaded_images : gset string;
  upload_status_file : string
}.

Definition set_images (l : list image_info) (self : LocalStorageManager)
  : LocalStorageManager :=
  {| max_images := max_images self; storage_dir := storage_dir self;
     images := l; uploaded_images := uploaded_images self;
     upload_status_file := upload_status_file self |}.

Definition set_uploaded (u : gset string) (self : LocalStorageManager)
  : LocalStorageManager :=
  {| max_images := max_images self; storage_dir := storage_dir self;
     images := images self; uploaded_images := u;
     upload_status_file := upload_status_file self |}.

Definition make_info (name path : string) (s : stat_result) : image_info :=
  {| filename := name; filepath := path; size := st_size s;
     created := st_ctime s; modified := st_mtime s |}.

(** *** Loading the directory *)

Definition is_image_name (name : string) : bool :=
  let l := lower name in
  endswith l ".jpg" || endswith l ".jpeg" || endswith l ".png".

(** [images.sort(key=created, reverse=True)]: a stable sort, newest
    first; entries of equal creation time keep their order. *)
Fixpoint insert_desc (x : image_info) (l : list image_info) : list image_info :=
  match l with
  | [] => [x]
  | y :: r => if created y <? created x then x :: l else y :: insert_desc x r
  end.

Definition sort_newest_first (l : list image_info) : list image_info :=
  foldl (fun acc x => insert_desc x acc) [] l.

(** The loop body of [_load_images]: a name that is not an image is
    skipped, and so is a file whose [os.stat] fails. *)
Definition scan_entry (w : world) (dir name : string) : option image_info :=
  if is_image_name name then
    let path := join dir name in
    match Os.stat w path with
    | Returns s => Some (make_info name path s)
    | Raises _ => None
    end
  else None.

(** [os.path.exists(storage_dir)] holds for a directory and for a regular
    file alike; on a regular file [os.listdir] raises. *)
Definition _load_images (dir : string) (w : world) : outcome (list image_info) :=
  if Os.path_exists w dir then Raises OSError
  else Returns (sort_newest_first (omap (scan_entry w dir) (Os.listdir w dir))).

(** *** The ledger *)

Inductive file_op :=
| FOpenW
| FWrite (chunk : string).

(** [open(path, 'w')] creates or truncates; [f.write] appends. *)
Definition file_step (op : file_op) (content : option string) : option string :=
  match op with
  | FOpenW => Some EmptyString
  | FWrite c => Some (default EmptyString content +:+ c)
  end.

Definition set_ledger (c : option string) (io : option nat) (w : world) : world :=
  {| w_files := w_files w; w_ledger := c; w_now := w_now w;
     w_ledger_io := io |}.

Fixpoint run_file_ops (ops : list file_op) (w : world) : outcome unit * world :=
  match ops with
  | [] => (Returns tt, w)
  | op :: rest =>
      match w_ledger_io w with
      | Some O => (Raises OSError, w)
      | io =>
          run_file_ops rest
            (set_ledger (file_step op (w_ledger w)) (Nat.pred <$> io) w)
      end
  end.

(** The calls [_save_upload_status] makes on the ledger file. *)
Definition save_ops (self : LocalStorageManager) (w : world) : list file_op :=
  FOpenW :: (FWrite <$>
    Json.dump_chunks (elements (uploaded_images self)) (w_now w)).

Definition _save_upload_status (self : LocalStorageManager) (w : world)
  : outcome unit * world :=
  match run_file_ops (save_ops self w) w with
  | (Raises _, w') => (Returns tt, w')
  | r => r
  end.

Definition mark_as_uploaded (name : string) (self : LocalStorageManager)
  (w : world) : outcome unit * LocalStorageManager * world :=
  let self' := set_uploaded ({[name]} ∪ uploaded_images self) self in
  match _save_upload_status self' w with
  | (Returns _, w') => (Returns tt, self', w')
  | (Raises e, w') => (Raises e, self', w')
  end.

Definition is_uploaded (name : string) (self : LocalStorageManager) : bool :=
  bool_decide (name ∈ uploaded_images self).

(** The ledger file as it stands when a save stops for good (the
    process is killed, the power fails) after the first [k] of its calls
    on the file have completed. *)
Definition interrupted_save (k : nat) (self : LocalStorageManager)
  (w : world) : option string :=
  w_ledger (run_file_ops (take k (save_ops self w))
              (set_ledger (w_ledger w) None w)).2.

(** The document a completed save of [self] leaves in the file. *)
Definition ledger_document (self : LocalStorageManager) (w : world) : string :=
  Json.dumps (elements (uploaded_images self)) (w_now w).

(** A save is atomic when, wherever it stops, the file holds the old
    content or the complete new document. *)
Definition save_is_atomic (self : LocalStorageManager) (w : world) : Prop :=
  forall k,
    interrupted_save k self w = w_ledger w
    \/ interrupted_save k self w = Some (ledger_document self w).

(** *** The queue *)

(** The [try] block of the eviction: move the file to [backup/]; when
    that fails, delete it; when that fails too, leave it. *)
Definition retire_file (dir : string) (oldest : image_info) (w : world) : world :=
  let backup_dir := join dir "backup" in
  let moved :=
    match Os.makedirs w backup_dir with
    | Returns _ => Os.move w (filepath oldest) (join backup_dir (filename oldest))
    | Raises e => Raises e
    end in
  match moved with
  | Returns w' => w'
  | Raises _ =>
      match Os.remove w (filepath oldest) with
      | Returns w' => w'
      | Raises _ => w
      end
  end.

(** The [while] loop of [_manage_queue_size]. *)
Equations? manage_loop (cap : Z) (dir : string) (imgs : list image_info)
  (w : world) : outcome unit * list image_info * world
  by wf (length imgs) lt :=
manage_loop cap dir imgs w with (Z.of_nat (length imgs) >? cap) := {
  | false => (Returns tt, imgs, w)
  | true with inspect (list_pop imgs) := {
      | exist _ None _ => (Raises IndexError, imgs, w)
      | exist _ (Some (oldest, rest)) Hpop =>
          manage_loop cap dir rest (retire_file dir oldest w) } }.
Proof.
  unfold list_pop in Hpop. destruct (last imgs) eqn:E; [|done].
  injection Hpop as <- <-. destruct imgs as [|y l]; [done|].
  rewrite (app_removelast_last y (l:=y :: l)) at 2 by done.
  rewrite length_app. simpl. lia.
Qed.

Definition _manage_queue_size (self : LocalStorageManager) (w : world)
  : outcome unit * LocalStorageManager * world :=
  let '(o, imgs, w') := manage_loop (max_images self) (storage_dir self)
                          (images self) w in
  (o, set_images imgs self, w').

Definition add_image_try (path : string) (self : LocalStorageManager)
  (w : world) : outcome bool * LocalStorageManager * world :=
  if negb (Os.path_exists w path) then (Returns false, self, w)
  else
    match Os.stat w path with
    | Raises e => (Raises e, self, w)
    | Returns s =>
        let info := make_info (basename path) path s in
        match _manage_queue_size (set_images (info :: images self) self) w with
        | (Returns _, self', w') => (Returns true, self', w')
        | (Raises e, self', w') => (Raises e, self', w')
        end
    end.

(** [add_image]: whatever the [try] block raises is logged and answered
    [False]; what it had already changed stays changed. *)
Definition add_image (path : string) (self : LocalStorageManager)
  (w : world) : bool * LocalStorageManager * world :=
  match add_image_try path self w with
  | (Returns b, self', w') => (b, self', w')
  | (Raises _, self', w') => (false, self', w')
  end.

Definition get_images (self : LocalStorageManager) : list image_info :=
  images self.

Definition get_image_count (self : LocalStorageManager) : Z :=
  Z.of_nat (length (images self)).

(** The scan of [remove_image]: the first entry named [name], and the
    list without it. *)
Fixpoint pop_named (name : string) (l : list image_info)
  : option (image_info * list image_info) :=
  match l with
  | [] => None
  | x :: r =>
      if String.eqb (filename x) name then Some (x, r)
      else match pop_named name r with
           | Some (y, r') => Some (y, x :: r')
           | None => None
           end
  end.

Definition remove_image (name : string) (self : LocalStorageManager)
  (w : world) : bool * LocalStorageManager * world :=
  match pop_named name (images self) with
  | Some (removed, rest) =>
      let self' := set_images rest self in
      if Os.path_exists w (filepath removed) then
        match Os.remove w (filepath removed) with
        | Returns w' => (true, self', w')
        | Raises _ => (false, self', w)
        end
      else (true, self', w)
  | None => (false, self, w)
  end.

Definition get_upload_queue (self : LocalStorageManager) : list image_info :=
  filter (fun img => is_uploaded (filename img) self = false) (images self).

Definition get_uploaded_count (self : LocalStorageManager) : Z :=
  Z.of_nat (base.size (uploaded_images self)).

(** *** Construction *)

Section Construction.

(** [json.load(f).get('uploaded_images', [])] read as a list of
    strings; it raises on a document that is not of that shape. *)
Variable json_uploaded_images : string -> outcome (list string).

(** [_load_upload_status]: an absent file leaves the set as it is, a
    file that does not parse empties it. *)
Definition _load_upload_status (self : LocalStorageManager) (w : world)
  : LocalStorageManager :=
  match w_ledger w with
  | Some content =>
      match json_uploaded_images content with
      | Returns names => set_uploaded (list_to_set names) self
      | Raises _ => set_uploaded ∅ self
      end
  | None => self
  end.

Definition __init__ (max_images : Z) (storage_dir : string) (w : world)
  : outcome LocalStorageManager :=
  match Os.makedirs w storage_dir with
  | Raises e => Raises e
  | Returns _ =>
      match _load_images storage_dir w with
      | Raises e => Raises e
      | Returns imgs =>
          Returns (_load_upload_status
                     {| max_images := max_images;
                        storage_dir := storage_dir;
                        images := imgs;
                        uploaded_images := ∅;
                        upload_status_file :=
                          join storage_dir "upload_status.json" |} w)
      end
  end.

End Construction.

End LocalStorage.

(** ** [web_app.py]: the upload worker and the force-upload route *)

Module WebApp.
Import LocalStorage.

(** What [uploader.upload(path)] does: it returns a location, possibly
    [None] or empty, or it raises. *)
Inductive upload_result :=
| UploadReturns (location : option string)
| UploadRaises.

(** [if location:] *)
Definition truthy (location : option string) : bool :=
  match location with
  | Some s => negb (String.eqb s EmptyString)
  | None => false
  end.

Definition succeeded (r : upload_result) : bool :=
  match r with
  | UploadReturns location => truthy location
  | UploadRaises => false
  end.

Definition marked_names (queue : list image_info)
  (answers : list upload_result) : list string :=
  omap (fun p : image_info * upload_result =>
          if succeeded p.2 then Some (filename p.1) else None)
       (zip queue answers).

Record system_status := {
  online : bool;
  last_check : string;
  pending_uploads : Z;
  total_captures : Z;
  successful_uploads : Z;
  failed_uploads : Z
}.

Definition count_success (s : system_status) : system_status :=
  {| online := online s; last_check := last_check s;
     pending_uploads := pending_uploads s;
     total_captures := total_captures s;
     successful_uploads := successful_uploads s + 1;
     failed_uploads := failed_uploads s |}.

Definition count_failure (s : system_status) : system_status :=
  {| online := online s; last_check := last_check s;
     pending_uploads := pending_uploads s;
     total_captures := total_captures s;
     successful_uploads := successful_uploads s;
     failed_uploads := failed_uploads s + 1 |}.

Definition set_online (b : bool) (stamp : string) (s : system_status)
  : system_status :=
  {| online := b; last_check := stamp;
     pending_uploads := pending_uploads s;
     total_captures := total_captures s;
     successful_uploads := successful_uploads s;
     failed_uploads := failed_uploads s |}.

Definition set_pending (n : Z) (s : system_status) : system_status :=
  {| online := online s; last_check := last_check s;
     pending_uploads := n;
     total_captures := total_captures s;
     successful_uploads := successful_uploads s;
     failed_uploads := failed_uploads s |}.

Section Uploader.

(** The uploader is an external collaborator: a state [U] and the
    effect of one [upload] call on it. *)
Context {U : Type}.
Variable upload : string -> U -> upload_result * U.

(** The module globals, the world, and (ghost) the paths handed to
    [uploader.upload] so far, first call first. *)
Record app := {
  storage_manager : option LocalStorageManager;
  uploader : option U;
  status : system_status;
  app_world : world;
  upload_log : list string
}.

Definition with_status (f : system_status -> system_status) (a : app) : app :=
  {| storage_manager := storage_manager a; uploader := uploader a;
     status := f (status a); app_world := app_world a;
     upload_log := upload_log a |}.

(** [uploader.upload(path)]; on an uploader that is [None] the call
    raises [AttributeError]. *)
Definition call_upload (path : string) (a : app) : upload_result * app :=
  match uploader a with
  | Some u =>
      let '(r, u') := upload path u in
      (r, {| storage_manager := storage_manager a; uploader := Some u';
             status := status a; app_world := app_world a;
             upload_log := upload_log a ++ [path] |})
  | None => (UploadRaises, a)
  end.

(** [storage_manager.mark_as_uploaded(name)] on the global; on a
    manager that is [None] the call raises [AttributeError]. *)
Definition call_mark (name : string) (a : app) : outcome unit * app :=
  match storage_manager a with
  | Some sm =>
      let '(o, sm', w') := mark_as_uploaded name sm (app_world a) in
      (o, {| storage_manager := Some sm'; uploader := uploader a;
             status := status a; app_world := w';
             upload_log := upload_log a |})
  | None => (Raises AttributeError, a)
  end.

(** The [for] loop of [upload_worker]: a falsy location or an
    exception counts a failure and leaves the loop. *)
Fixpoint upload_batch (batch : list image_info) (a : app) : app :=
  match batch with
  | [] => a
  | img_info :: rest =>
      match call_upload (filepath img_info) a with
      | (UploadReturns location, a1) =>
          if truthy location then
            match call_mark (filename img_info) (with_status count_success a1) with
            | (Returns _, a2) => upload_batch rest a2
            | (Raises _, a2) => with_status count_failure a2
            end
          else with_status count_failure a1
      | (UploadRaises, a1) => with_status count_failure a1
      end
  end.

(** One turn of the [while True] loop of [upload_worker], the sleep
    left out; [probe] is what [check_internet_connection()] answers. *)
Definition upload_worker_cycle (probe : bool) (a : app) : app :=
  if probe then
    let a1 := with_status (set_online true (w_now (app_world a))) a in
    match storage_manager a1 with
    | None => a1
    | Some sm =>
        let images_to_upload := get_upload_queue sm in
        let a2 :=
          match images_to_upload with
          | [] => a1
          | _ => upload_batch (take 5 images_to_upload) a1
          end in
        match storage_manager a2 with
        | Some sm' =>
            with_status
              (set_pending (Z.of_nat (length (get_upload_queue sm')))) a2
        | None => a2
        end
    end
  else with_status (set_online false (w_now (app_world a))) a.

Inductive response :=
| Failure (code : Z) (message : string)
| ForceUploadDone (uploaded failed remaining : Z).

(** The [for] loop of [force_upload], with its two local counters. *)
Fixpoint force_loop (queue : list image_info) (uploaded_count failed_count : Z)
  (a : app) : Z * Z * app :=
  match queue with
  | [] => (uploaded_count, failed_count, a)
  | img_info :: rest =>
      match call_upload (filepath img_info) a with
      | (UploadReturns location, a1) =>
          if truthy location then
            match call_mark (filename img_info) (with_status count_success a1) with
            | (Returns _, a2) => force_loop rest (uploaded_count + 1) failed_count a2
            | (Raises _, a2) =>
                force_loop rest (uploaded_count + 1) (failed_count + 1)
                  (with_status count_failure a2)
            end
          else force_loop rest uploaded_count (failed_count + 1)
                 (with_status count_failure a1)
      | (UploadRaises, a1) =>
          force_loop rest uploaded_count (failed_count + 1)
            (with_status count_failure a1)
      end
  end.

Definition force_upload (probe : bool) (a : app) : response * app :=
  match storage_manager a with
  | None => (Failure 500 "Storage manager not initialized", a)
  | Some sm =>
      match uploader a with
      | None => (Failure 500 "Uploader not initialized", a)
      | Some _ =>
          if negb probe then (Failure 400 "No internet connection", a)
          else
            let '(uploaded_count, failed_count, a') :=
              force_loop (get_upload_queue sm) 0 0 a in
            let remaining :=
              match storage_manager a' with
              | Some sm' => get_image_count sm'
              | None => 0
              end in
            (ForceUploadDone uploaded_count failed_count remaining, a')
      end
  end.

(** The answers the uploader gives to a run of calls, one after the
    other, and the entries of a queue that a run of answers marks. *)
Fixpoint upload_answers (paths : list string) (u : U) : list upload_result :=
  match paths with
  | [] => []
  | p :: later =>
      let '(r, u') := upload p u in r :: upload_answers later u'
  end.

End Uploader.

Arguments app U : clear implicits.

End WebApp.

(** ** [gpio_service.py]: the poll loop *)

Module GpioService.

Record GPIOService := {
  gpio_available : bool;
  monitoring : bool;
  callbacks : gset string;
  pin_states : gmap Z Z;
  pins : list (string * Z)
}.

Definition set_pin_state (pin v : Z) (g : GPIOService) : GPIOService :=
  {| gpio_available := gpio_available g; monitoring := monitoring g;
     callbacks := callbacks g; pin_states := <[pin := v]> (pin_states g);
     pins := pins g |}.

(** What the loop does that can be seen from outside: a line was
    sampled, a handler was called. *)
Inductive event :=
| Sampled (camera_id : string) (value : Z)
| Fired (camera_id : string).

(** The object [__init__] builds before [_setup_gpio] runs; the two pin
    numbers come from the configuration. *)
Definition new_service (available : bool) (pin1 pin2 : Z) : GPIOService :=
  {| gpio_available := available; monitoring := false; callbacks := ∅;
     pin_states := ∅;
     pins := [("camera_1", pin1); ("camera_2", pin2)] |}.

(** [_setup_gpio]: every pin is read once; an exception turns the
    service unavailable and keeps the states read so far. *)
Fixpoint setup_pins (input : Z -> outcome Z) (chans : list (string * Z))
  (g : GPIOService) : GPIOService :=
  match chans with
  | [] => g
  | (_, pin) :: rest =>
      match input pin with
      | Returns v => setup_pins input rest (set_pin_state pin v g)
      | Raises _ =>
          {| gpio_available := false; monitoring := monitoring g;
             callbacks := callbacks g; pin_states := pin_states g;
             pins := pins g |}
      end
  end.

Definition _setup_gpio (input : Z -> outcome Z) (g : GPIOService) : GPIOService :=
  setup_pins input (pins g) g.

Definition register_callback (camera_id : string) (g : GPIOService)
  : GPIOService :=
  if bool_decide (camera_id ∈ (pins g).*1) then
    {| gpio_available := gpio_available g; monitoring := monitoring g;
       callbacks := {[camera_id]} ∪ callbacks g;
       pin_states := pin_states g; pins := pins g |}
  else g.

Definition start_monitoring (g : GPIOService) : GPIOService :=
  if negb (gpio_available g) then g
  else if monitoring g then g
  else {| gpio_available := gpio_available g; monitoring := true;
          callbacks := callbacks g; pin_states := pin_states g;
          pins := pins g |}.

(** The [for] loop inside [_monitor_pins]: one pass over the channels.
    [input] is [GPIO.input] during this pass; when it raises, the pass
    is abandoned. *)
Fixpoint scan_pins (input : Z -> outcome Z) (chans : list (string * Z))
  (g : GPIOService) : GPIOService * list event :=
  match chans with
  | [] => (g, [])
  | (camera_id, pin) :: rest =>
      if negb (bool_decide (camera_id ∈ callbacks g)) then
        scan_pins input rest g
      else
        match input pin with
        | Raises _ => (g, [])
        | Returns current_state =>
            let previous_state := default 1 (pin_states g !! pin) in
            let fired :=
              if (previous_state =? 1) && (current_state =? 0)
              then [Fired camera_id] else [] in
            let '(g', evs) :=
              scan_pins input rest (set_pin_state pin current_state g) in
            (g', Sampled camera_id current_state :: fired ++ evs)
        end
  end.

(** [_monitor_pins] over the successive passes of the loop, one reading
    function for each. *)
Fixpoint _monitor_pins (inputs : list (Z -> outcome Z)) (g : GPIOService)
  : GPIOService * list event :=
  match inputs with
  | [] => (g, [])
  | input :: later =>
      if monitoring g then
        let '(g1, evs1) := scan_pins input (pins g) g in
        let '(g2, evs2) := _monitor_pins later g1 in
        (g2, evs1 ++ evs2)
      else (g, [])
  end.

(** How often the handler of [c] was called, and the values sampled on
    the line of [c], in order. *)
Definition is_fired (c : string) (e : event) : bool :=
  match e with
  | Fired c' => String.eqb c c'
  | Sampled _ _ => false
  end.

Definition fired_count (c : string) (evs : list event) : nat :=
  length (filter (fun e => is_fired c e = true) evs).

Definition samples_of (c : string) (evs : list event) : list Z :=
  omap (fun e => match e with
                 | Sampled c' v => if String.eqb c c' then Some v else None
                 | Fired _ => None
                 end) evs.

(** The falling edges of a line: the places where a sample is low (0)
    and the sample before it, or [prev] for the first one, is high (1). *)
Fixpoint falling_edges (prev : Z) (samples : list Z) : nat :=
  match samples with
  | [] => O
  | v :: later =>
      if (prev =? 1) && (v =? 0) then S (falling_edges v later)
      else falling_edges v later
  end.

End GpioService.

(** ** Sequences of queue operations *)

Module Ops.
Import LocalStorage.

Inductive queue_op :=
| Insert (path : string)
| Remove (name : string)
| Mark (name : string).

Definition run_op (op : queue_op) (st : LocalStorageManager * world)
  : LocalStorageManager * world :=
  match op with
  | Insert path => let '(_, self, w) := add_image path st.1 st.2 in (self, w)
  | Remove name => let '(_, self, w) := remove_image name st.1 st.2 in (self, w)
  | Mark name => let '(_, self, w) := mark_as_uploaded name st.1 st.2 in (self, w)
  end.

Definition run_ops (ops : list queue_op) (st : LocalStorageManager * world)
  : LocalStorageManager * world :=
  foldl (fun st op => run_op op st) st ops.

(** [add_image] on each path in turn; the answers are kept in order. *)
Fixpoint add_images (paths : list string) (self : LocalStorageManager)
  (w : world) : list bool * LocalStorageManager * world :=
  match paths with
  | [] => ([], self, w)
  | p :: later =>
      let '(b, self1, w1) := add_image p self w in
      let '(bs, self2, w2) := add_images later self1 w1 in
      (b :: bs, self2, w2)
  end.

Definition filenames (self : LocalStorageManager) : list string :=
  filename <$> images self.

Definition filepaths (self : LocalStorageManager) : list string :=
  filepath <$> images self.

(** Every [Insert] of the run brings a file name that the queue does
    not hold at that moment. *)
Fixpoint inserts_fresh (ops : list queue_op)
  (st : LocalStorageManager * world) : Prop :=
  match ops with
  | [] => True
  | op :: later =>
      match op with
      | Insert path => basename path ∉ filenames st.1
      | _ => True
      end
      /\ inserts_fresh later (run_op op st)
  end.

End Ops.

(** ** Concrete states used in examples *)

Module Fixtures.
Import LocalStorage WebApp.

Definition file_at (t : Z) : stat_result :=
  {| st_size := 1000; st_ctime := t; st_mtime := t |}.

(** Six captures on disk, [a.jpg] the oldest and [f.jpg] the newest. *)
Definition six_files : gmap string stat_result :=
  <["images/a.jpg" := file_at 1]> (<["images/b.jpg" := file_at 2]>
  (<["images/c.jpg" := file_at 3]> (<["images/d.jpg" := file_at 4]>
  (<["images/e.jpg" := file_at 5]> (<["images/f.jpg" := file_at 6]> ∅))))).

Definition disk (fs : gmap string stat_result) (ledger : option string) : world :=
  {| w_files := fs; w_ledger := ledger; w_now := "2024-01-01T00:00:00";
     w_ledger_io := None |}.

Definition empty_manager (cap : Z) : LocalStorageManager :=
  {| max_images := cap; storage_dir := "images"; images := [];
     uploaded_images := ∅;
     upload_status_file := "images/upload_status.json" |}.

(** A parser that rejects every document: enough where no ledger file
    is present. *)
Definition no_json (content : string) : outcome (list string) :=
  Raises ValueError.

(** An uploader that follows a script: each call consumes one verdict,
    [true] for an upload that returns a location, [false] for one that
    returns [None]; once the script is over every upload succeeds. *)
Definition scripted (path : string) (script : list bool)
  : upload_result * list bool :=
  match script with
  | [] => (UploadReturns (Some ("s3://bucket/" +:+ path)), [])
  | true :: later => (UploadReturns (Some ("s3://bucket/" +:+ path)), later)
  | false :: later => (UploadReturns None, later)
  end.

(** A manager whose ledger holds [a.jpg], and a disk whose ledger file
    is the complete document for it. *)
Definition manager_with_a : LocalStorageManager :=
  {| max_images := 50; storage_dir := "images"; images := [];
     uploaded_images := {["a.jpg"]};
     upload_status_file := "images/upload_status.json" |}.

Definition disk_with_a : world :=
  disk six_files (Some (Json.dumps ["a.jpg"] "2023-12-31T00:00:00")).

Definition fresh_status : system_status :=
  {| online := true; last_check := EmptyString; pending_uploads := 0;
     total_captures := 0; successful_uploads := 0; failed_uploads := 0 |}.

Definition app_of (sm : LocalStorageManager) (w : world) (script : list bool)
  : app (list bool) :=
  {| storage_manager := Some sm; uploader := Some script;
     status := fresh_status; app_world := w; upload_log := [] |}.

(** The service as [web_app.py] brings it up on pins 18 and 19, both
    lines high at set-up, both handlers registered. *)
Definition running_service : GpioService.GPIOService :=
  GpioService.start_monitoring
    (GpioService.register_callback "camera_2"
       (GpioService.register_callback "camera_1"
          (GpioService._setup_gpio (fun _ => Returns 1)
             (GpioService.new_service true 18 19)))).

(** One pass in which line 18 reads [v] and line 19 reads low. *)
Definition reading (v : Z) (pin : Z) : outcome Z :=
  if pin =? 18 then Returns v else Returns 0.

End Fixtures.

(** ** [local_storage.py]: maintenance of the backup directory *)

Module Maintenance.
Import LocalStorage.


(** The loop body of [cleanup_backup]: a regular file of the backup
    directory whose modification time lies before the cut-off is deleted. *)
Definition cleanup_entry (cutoff_date : Z) (backup_dir : string) (w : world)
  (name : string) : world :=
  let path := join backup_dir name in
  match w_files w !! path with
  | Some s =>
      if st_mtime s <? cutoff_date then
        match Os.remove w path with
        | Returns w' => w'
        | Raises _ => w
        end
      else w
  | None => w
  end.



End Maintenance.

(** ** [web_app.py]: the capture callbacks, the rescan route, repeated
       cycles *)

Module Handlers.
Import LocalStorage WebApp.

(** [s[n:]] *)
Fixpoint string_drop (n : nat) (s : string) : string :=
  match n, s with
  | O, _ => s
  | S k, String _ r => string_drop k r
  | S _, EmptyString => EmptyString
  end.


Section Uploader.

Context {U : Type}.
Variable upload : string -> U -> upload_result * U.

Definition with_storage (sm : LocalStorageManager) (w : world) (a : app U)
  : app U :=
  {| storage_manager := Some sm; uploader := uploader a; status := status a;
     app_world := w; upload_log := upload_log a |}.

(** What [gpio_camera_1_callback] and [gpio_camera_2_callback] do once
    [camera_service] is set; [captured] is what the capture call did.  A
    location [local:<path>] is stored and uploaded at once; the answer of
    [add_image] is not looked at. *)
Definition gpio_camera_callback (captured : outcome (option string))
  (a : app U) : app U :=
  match captured with
  | Returns (Some location) =>
      if negb (String.eqb location EmptyString) && startswith location "local:"
      then
        let path := string_drop 6 location in
        match storage_manager a with
        | None => a
        | Some sm =>
            let '(_, sm1, w1) := add_image path sm (app_world a) in
            match call_upload upload path (with_storage sm1 w1 a) with
            | (UploadReturns upload_location, a2) =>
                if truthy upload_location
                then (call_mark (basename path) a2).2
                else a2
            | (UploadRaises, a2) => a2
            end
        end
      else a
  | Returns None => a
  | Raises _ => a
  end.


(** Successive turns of the loop of [upload_worker], one connectivity
    answer for each. *)
Definition run_cycles (probes : list bool) (a : app U) : app U :=
  foldl (fun a probe => upload_worker_cycle upload probe a) a probes.

End Uploader.

End Handlers.

(** ** [gpio_service.py]: the control calls *)

Module GpioControl.
Import GpioService.

Definition stop_monitoring (g : GPIOService) : GPIOService :=
  if negb (monitoring g) then g
  else {| gpio_available := gpio_available g; monitoring := false;
          callbacks := callbacks g; pin_states := pin_states g;
          pins := pins g |}.

Definition is_gpio_available (g : GPIOService) : bool := gpio_available g.

(** [get_pin_state]: [None] when the service is unavailable or the
    channel unknown, otherwise whether the line reads low. *)
Definition get_pin_state (input : Z -> outcome Z) (camera_id : string)
  (g : GPIOService) : outcome (option bool) :=
  if negb (gpio_available g) then Returns None
  else
    match (list_to_map (pins g) : gmap string Z) !! camera_id with
    | None => Returns None
    | Some pin =>
        match input pin with
        | Returns v => Returns (Some (v =? 0))
        | Raises e => Raises e
        end
    end.

(** The calls the rest of the program makes on the service. *)
Inductive gpio_call :=
| Register (camera_id : string)
| Start
| Stop.

Definition run_call (g : GPIOService) (c : gpio_call) : GPIOService :=
  match c with
  | Register camera_id => register_callback camera_id g
  | Start => start_monitoring g
  | Stop => stop_monitoring g
  end.

Definition run_calls (calls : list gpio_call) (g : GPIOService) : GPIOService :=
  foldl run_call g calls.

End GpioControl.

(** ** [trigger_server.py]: the choice of the camera *)

Module TriggerServer.

(** [needle in hay] *)
Fixpoint contains (needle hay : string) : bool :=
  String.prefix needle hay
  || match hay with
     | EmptyString => false
     | String _ r => contains needle r
     end.

Inductive camera := Camera1 | Camera2.

(** The branch [_process_trigger] takes. *)
Definition select_camera (trigger_data : string) : camera :=
  if contains "camera_1" (lower trigger_data)
     || contains "rfid_1" (lower trigger_data) then Camera1
  else if contains "camera_2" (lower trigger_data)
          || contains "rfid_2" (lower trigger_data) then Camera2
  else Camera1.

(** [_process_trigger]; [capture c] is what the capture call of camera
    [c] does. *)
Definition _process_trigger (capture : camera -> outcome (option string))
  (trigger_data : string) : bool :=
  match capture (select_camera trigger_data) with
  | Returns (Some _) => true
  | Returns None => false
  | Raises _ => false
  end.

End TriggerServer.

(** ** Further concrete states *)

Module MoreFixtures.
Import LocalStorage WebApp.

(** A parser that reads one document, [doc], as the list [names], and
    rejects every other content. *)
Definition one_document_json (doc : string) (names : list string)
  (content : string) : outcome (list string) :=
  if String.eqb content doc then Returns names else Raises ValueError.

(** An uploader that never gets a file through. *)
Definition unreachable (path : string) (u : unit) : upload_result * unit :=
  (UploadRaises, u).

(** An uploader that gets every file through. *)
Definition healthy (path : string) (u : unit) : upload_result * unit :=
  (UploadReturns (Some ("s3://bucket/" +:+ path)), u).

Definition unit_app (sm : LocalStorageManager) (w : world) : app unit :=
  {| storage_manager := Some sm; uploader := Some tt;
     status := Fixtures.fresh_status; app_world := w; upload_log := [] |}.

End MoreFixtures.

(** * Properties *)

Import LocalStorage WebApp GpioService Ops.
Import Maintenance Handlers GpioControl TriggerServer.

(** ** Lists and the world *)

Section Helpers.

Lemma list_pop_snoc {A} (l : list A) x r :
  list_pop l = Some (x, r) <-> l = r ++ [x].
Proof.
  unfold list_pop. split.
  - destruct (last l) eqn:E; [|done]. intros [= <- <-].
    destruct l as [|y l]; [done|].
    rewrite last_Some in E. destruct E as [l' E]. rewrite E.
    by rewrite removelast_last.
  - intros ->. rewrite last_snoc. by rewrite removelast_last.
Qed.

Lemma list_pop_nil {A} (l : list A) : list_pop l = None <-> l = [].
Proof.
  unfold list_pop. destruct l as [|y l] using rev_ind; [done|].
  rewrite last_snoc. split; [done|]. by destruct l.
Qed.

Lemma take_app_take {A} (n : nat) (l1 l2 : list A) :
  take n (l1 ++ take n l2) = take n (l1 ++ l2).
Proof.
  rewrite !take_app. f_equal. rewrite take_take. f_equal. lia.
Qed.

Lemma retire_file_keeps dir oldest w p :
  p ≠ filepath oldest ->
  is_Some (w_files w !! p) ->
  is_Some (w_files (retire_file dir oldest w) !! p).
Proof.
  intros Hne Hp. unfold retire_file, Os.move, Os.remove.
  destruct (Os.makedirs w (join dir "backup"));
    destruct (w_files w !! filepath oldest) eqn:E; simpl; try done.
  - destruct (decide (join (join dir "backup") (filename oldest) = p)) as [->|Hd].
    + rewrite lookup_insert_eq. eauto.
    + rewrite lookup_insert_ne, lookup_delete_ne by done. done.
  - by rewrite lookup_delete_ne.
Qed.

Lemma retire_file_rest dir oldest w :
  w_ledger (retire_file dir oldest w) = w_ledger w
  /\ w_now (retire_file dir oldest w) = w_now w
  /\ w_ledger_io (retire_file dir oldest w) = w_ledger_io w.
Proof.
  unfold retire_file, Os.move, Os.remove.
  destruct (Os.makedirs w (join dir "backup"));
    destruct (w_files w !! filepath oldest); done.
Qed.

End Helpers.

(** ** The eviction loop *)

Section ManageLoop.

(** With a capacity that is not negative the loop returns normally and
    keeps the first [cap] entries. *)
Lemma manage_loop_take cap dir imgs w :
  0 <= cap ->
  (manage_loop cap dir imgs w).1 = (Returns tt, take (Z.to_nat cap) imgs).
Proof.
  intros Hcap. funelim (manage_loop cap dir imgs w); simpl;
    rewrite Z.gtb_ltb in Heq;
    [apply Z.ltb_ge in Heq | apply Z.ltb_lt in Heq..].
  - rewrite take_ge; [done|]. lia.
  - assert (imgs = rest ++ [oldest]) as -> by (by apply list_pop_snoc).
    rewrite H by done. f_equal.
    rewrite length_app in Heq. simpl in Heq.
    rewrite take_app_le; [done|]. lia.
  - assert (imgs = []) as -> by (by apply list_pop_nil). simpl in Heq. lia.
Qed.

(** With a negative capacity the loop empties the list and then pops
    from the empty list. *)
Lemma manage_loop_negative cap dir imgs w :
  cap < 0 ->
  (manage_loop cap dir imgs w).1 = (Raises IndexError, []).
Proof.
  intros Hcap. funelim (manage_loop cap dir imgs w); simpl.
  - rewrite Z.gtb_ltb in Heq. apply Z.ltb_ge in Heq. lia.
  - by apply H.
  - by assert (imgs = []) as -> by (by apply list_pop_nil).
Qed.

(** Whatever the capacity, what is left is a prefix of the list. *)
Lemma manage_loop_prefix cap dir imgs w :
  exists k, (manage_loop cap dir imgs w).1.2 = take k imgs.
Proof.
  funelim (manage_loop cap dir imgs w); simpl.
  - exists (length imgs). by rewrite take_ge.
  - destruct H as [k Hk]. assert (imgs = rest ++ [oldest]) as -> by (by apply list_pop_snoc).
    exists (k `min` length rest)%nat. rewrite Hk.
    rewrite take_app_le by lia.
    destruct (decide (k <= length rest)%nat).
    + by rewrite Nat.min_l.
    + rewrite Nat.min_r by lia. rewrite !take_ge; [done|lia..].
  - by exists (length imgs); rewrite take_ge.
Qed.

(** The loop touches no file but those of the entries it was given,
    and nothing else of the world. *)
Lemma manage_loop_world cap dir imgs w :
  (forall p, p ∉ filepath <$> imgs -> is_Some (w_files w !! p) ->
             is_Some (w_files (manage_loop cap dir imgs w).2 !! p))
  /\ w_ledger (manage_loop cap dir imgs w).2 = w_ledger w
  /\ w_now (manage_loop cap dir imgs w).2 = w_now w
  /\ w_ledger_io (manage_loop cap dir imgs w).2 = w_ledger_io w.
Proof.
  funelim (manage_loop cap dir imgs w); simpl; [done| |done].
  assert (imgs = rest ++ [oldest]) as -> by (by apply list_pop_snoc).
  destruct H as (Hf & Hl & Hn & Hio).
  destruct (retire_file_rest dir oldest w) as (Hl' & Hn' & Hio').
  repeat split; [|congruence..].
  intros p Hp Hsome. rewrite fmap_app in Hp. simpl in Hp.
  apply Hf; [set_solver|].
  apply retire_file_keeps; [set_solver|done].
Qed.

End ManageLoop.

(** ** Inserting *)

Section Insert.

(** [add_image] of a file that exists, under a capacity that is not
    negative: the new entry goes to the head and the list is cut to the
    capacity. *)
Lemma add_image_existing path self w s :
  0 <= max_images self ->
  w_files w !! path = Some s ->
  exists w',
    add_image path self w =
      (true,
       set_images (take (Z.to_nat (max_images self))
                     (make_info (basename path) path s :: images self)) self,
       w')
    /\ (forall p, p ≠ path -> p ∉ filepaths self ->
                  is_Some (w_files w !! p) -> is_Some (w_files w' !! p)).
Proof.
  intros Hcap Hs.
  unfold add_image, add_image_try, Os.path_exists, Os.stat.
  rewrite Hs. rewrite bool_decide_eq_true_2 by eauto. simpl.
  unfold _manage_queue_size. simpl.
  set (imgs := make_info (basename path) path s :: images self).
  pose proof (manage_loop_take (max_images self) (storage_dir self) imgs w Hcap) as Ht.
  pose proof (manage_loop_world (max_images self) (storage_dir self) imgs w) as (Hw & _).
  destruct (manage_loop (max_images self) (storage_dir self) imgs w)
    as [[o l] w'] eqn:E.
  simpl in Ht. injection Ht as -> ->. simpl in Hw.
  exists w'. split; [done|].
  intros p Hne Hnin Hp. apply Hw; [|done].
  subst imgs. apply not_elem_of_cons. done.
Qed.

Lemma filepaths_take n l self :
  filepaths (set_images (take n l) self) = take n (filepath <$> l).
Proof. unfold filepaths. simpl. by rewrite fmap_take. Qed.

(** A run of inserts of new, distinct, existing files: every insert is
    answered [True], and the queue is the reversed run put before the
    old queue and cut to the capacity. *)
Lemma add_images_spec paths : forall self w,
  0 <= max_images self ->
  (length (images self) <= Z.to_nat (max_images self))%nat ->
  NoDup paths ->
  (forall p, p ∈ paths -> is_Some (w_files w !! p)) ->
  (forall p, p ∈ paths -> p ∉ filepaths self) ->
  exists self' w',
    add_images paths self w = (replicate (length paths) true, self', w')
    /\ max_images self' = max_images self
    /\ uploaded_images self' = uploaded_images self
    /\ filepaths self' =
         take (Z.to_nat (max_images self)) (reverse paths ++ filepaths self).
Proof.
  induction paths as [|p ps IH]; intros self w Hcap Hlen Hnd Hex Hnew.
  - exists self, w. simpl. repeat split.
    rewrite take_ge; [done|]. unfold filepaths. by rewrite length_fmap.
  - apply NoDup_cons in Hnd as [Hp Hnd].
    destruct (Hex p) as [s Hs]; [set_solver|].
    destruct (add_image_existing p self w s Hcap Hs) as (w1 & Hadd & Hkeep).
    set (self1 := set_images (take (Z.to_nat (max_images self))
                     (make_info (basename p) p s :: images self)) self) in *.
    assert (Hfp1 : filepaths self1 =
              take (Z.to_nat (max_images self)) (p :: filepaths self)).
    { subst self1. by rewrite filepaths_take. }
    destruct (IH self1 w1) as (self' & w' & Hrun & Hmax & Hup & Hfp); try done.
    + subst self1. simpl. rewrite length_take. lia.
    + intros q Hq. apply Hkeep; [set_solver| |].
      * apply Hnew. set_solver.
      * apply Hex. set_solver.
    + intros q Hq Hin. rewrite Hfp1 in Hin.
      apply elem_of_take in Hin as (i & Hin & _).
      apply list_elem_of_lookup_2 in Hin.
      apply elem_of_cons in Hin as [->|Hin]; [done|].
      by apply (Hnew q); [set_solver|].
    + exists self', w'. simpl. rewrite Hadd, Hrun. repeat split; try done.
      rewrite Hfp, Hfp1. change (max_images self1) with (max_images self).
      rewrite take_app_take. rewrite reverse_cons, <- app_assoc. done.
Qed.

End Insert.

(** ** Capacity *)

(** C4.  Capacity invariant.  Under a capacity [C >= 1], a run of
    [N > C] inserts of distinct files that exist and are not queued
    already answers [True] every time and leaves exactly [C] entries in
    the queue: the [C] files inserted last, the newest at the head. *)
Theorem capacity_invariant (C : Z) (paths : list string)
    (self : LocalStorageManager) (w : world) :
  1 <= C ->
  max_images self = C ->
  C < Z.of_nat (length paths) ->
  NoDup paths ->
  (forall p, p ∈ paths -> Os.path_exists w p = true) ->
  (forall p, p ∈ paths -> p ∉ filepaths self) ->
  exists self' w',
    add_images paths self w = (replicate (length paths) true, self', w')
    /\ Z.of_nat (length (images self')) = C
    /\ filepaths self' = take (Z.to_nat C) (reverse paths).
Proof.
  intros HC Hmax HN Hnd Hex Hnew.
  assert (Hex' : forall p, p ∈ paths -> is_Some (w_files w !! p)).
  { intros p Hp. specialize (Hex p Hp). unfold Os.path_exists in Hex.
    by apply bool_decide_eq_true in Hex. }
  destruct paths as [|p ps]; [simpl in HN; lia|].
  apply NoDup_cons in Hnd as [Hp Hnd].
  destruct (Hex' p) as [s Hs]; [set_solver|].
  assert (Hcap : 0 <= max_images self) by lia.
  destruct (add_image_existing p self w s Hcap Hs) as (w1 & Hadd & Hkeep).
  set (self1 := set_images (take (Z.to_nat (max_images self))
                   (make_info (basename p) p s :: images self)) self) in *.
  assert (Hfp1 : filepaths self1 =
            take (Z.to_nat (max_images self)) (p :: filepaths self)).
  { subst self1. by rewrite filepaths_take. }
  destruct (add_images_spec ps self1 w1) as (self' & w' & Hrun & Hmax' & _ & Hfp);
    try done.
  - subst self1. simpl. rewrite length_take. lia.
  - intros q Hq. apply Hkeep; [set_solver| |].
    + apply Hnew. set_solver.
    + apply Hex'. set_solver.
  - intros q Hq Hin. rewrite Hfp1 in Hin.
    apply elem_of_take in Hin as (i & Hin & _).
    apply list_elem_of_lookup_2 in Hin.
    apply elem_of_cons in Hin as [->|Hin]; [done|].
    by apply (Hnew q); [set_solver|].
  - exists self', w'. simpl. rewrite Hadd, Hrun.
    assert (Hall : filepaths self' = take (Z.to_nat C) (reverse (p :: ps))).
    { rewrite Hfp, Hfp1. change (max_images self1) with (max_images self).
      rewrite take_app_take, reverse_cons, Hmax.
      change (p :: filepaths self) with ([p] ++ filepaths self).
      rewrite app_assoc. apply take_app_le.
      rewrite length_app, length_reverse. simpl in *. lia. }
    repeat split; [|done].
    transitivity (Z.of_nat (length (filepaths self'))).
    { unfold filepaths. by rewrite length_fmap. }
    rewrite Hall, length_take, length_reverse. simpl in *. lia.
Qed.

Lemma capacity_invariant_witness :
  let paths := ["images/a.jpg"; "images/b.jpg"; "images/c.jpg"] in
  let self := Fixtures.empty_manager 2 in
  let w := Fixtures.disk Fixtures.six_files None in
  exists self' w',
    add_images paths self w = (replicate (length paths) true, self', w')
    /\ Z.of_nat (length (images self')) = 2
    /\ filepaths self' = take (Z.to_nat 2) (reverse paths).
Proof.
  intros paths self w.
  apply (capacity_invariant 2 paths self w).
  - lia.
  - reflexivity.
  - simpl. lia.
  - apply (bool_decide_unpack _). vm_compute. exact I.
  - apply Forall_forall. apply (bool_decide_unpack _). vm_compute. exact I.
  - apply Forall_forall. apply (bool_decide_unpack _). vm_compute. exact I.
Defined.

Example capacity_example :
  filepaths (add_images ["images/a.jpg"; "images/b.jpg"; "images/c.jpg"]
               (Fixtures.empty_manager 2)
               (Fixtures.disk Fixtures.six_files None)).1.2
  = ["images/c.jpg"; "images/b.jpg"].
Proof. vm_compute. reflexivity. Qed.

(** ** The ledger *)

Section Ledger.

Lemma add_image_keeps path self w :
  uploaded_images (add_image path self w).1.2 = uploaded_images self
  /\ max_images (add_image path self w).1.2 = max_images self
  /\ storage_dir (add_image path self w).1.2 = storage_dir self.
Proof.
  unfold add_image, add_image_try.
  destruct (negb (Os.path_exists w path)); [done|].
  destruct (Os.stat w path) as [s|e]; [|done].
  unfold _manage_queue_size.
  destruct (manage_loop _ _ _ _) as [[[?|?] ?] ?]; done.
Qed.

Lemma remove_image_keeps name self w :
  uploaded_images (remove_image name self w).1.2 = uploaded_images self
  /\ max_images (remove_image name self w).1.2 = max_images self
  /\ storage_dir (remove_image name self w).1.2 = storage_dir self.
Proof.
  unfold remove_image.
  destruct (pop_named name (images self)) as [[removed rest]|]; [|done].
  destruct (Os.path_exists w (filepath removed)); [|done].
  destruct (Os.remove w (filepath removed)); done.
Qed.

Lemma mark_as_uploaded_self name self w :
  (mark_as_uploaded name self w).1.2
  = set_uploaded ({[name]} ∪ uploaded_images self) self.
Proof.
  unfold mark_as_uploaded.
  destruct (_save_upload_status _ w) as [[?|?] ?]; done.
Qed.

Lemma mark_as_uploaded_returns name self w :
  (mark_as_uploaded name self w).1.1 = Returns tt.
Proof.
  unfold mark_as_uploaded, _save_upload_status.
  destruct (run_file_ops _ w) as [[[]|?] ?]; done.
Qed.

Lemma run_op_grows op st :
  uploaded_images st.1 ⊆ uploaded_images (run_op op st).1.
Proof.
  destruct st as [self w]. destruct op as [path|name|name]; simpl.
  - pose proof (add_image_keeps path self w) as (H & _).
    destruct (add_image path self w) as [[? ?] ?]. simpl in *. by rewrite H.
  - pose proof (remove_image_keeps name self w) as (H & _).
    destruct (remove_image name self w) as [[? ?] ?]. simpl in *. by rewrite H.
  - pose proof (mark_as_uploaded_self name self w) as H.
    destruct (mark_as_uploaded name self w) as [[? ?] ?]. simpl in *.
    rewrite H. simpl. set_solver.
Qed.

Lemma run_ops_grows ops : forall st,
  uploaded_images st.1 ⊆ uploaded_images (run_ops ops st).1.
Proof.
  induction ops as [|op ops IH]; intros st; [done|].
  simpl. etransitivity; [apply (run_op_grows op)|apply IH].
Qed.

Lemma marked_stays name self w ops :
  is_uploaded name
    (run_ops ops ((mark_as_uploaded name self w).1.2,
                  (mark_as_uploaded name self w).2)).1 = true.
Proof.
  apply bool_decide_eq_true.
  apply (run_ops_grows ops). simpl.
  rewrite mark_as_uploaded_self. simpl. set_solver.
Qed.

End Ledger.

(** C5.  Ledger monotonicity.  Once [mark_as_uploaded f] has run,
    [is_uploaded f] answers [True] after any further run of inserts (with
    the evictions they cause), removals and marks. *)
Theorem ledger_monotonic (f : string) (self : LocalStorageManager)
    (w : world) (ops : list queue_op) :
  let '(_, self1, w1) := mark_as_uploaded f self w in
  is_uploaded f (run_ops ops (self1, w1)).1 = true.
Proof.
  pose proof (marked_stays f self w ops) as H.
  by destruct (mark_as_uploaded f self w) as [[? ?] ?].
Qed.

(** The entry of [a.jpg] is evicted by two later inserts under capacity 2;
    its ledger record stays. *)
Example ledger_survives_eviction :
  let st := run_ops [Insert "images/a.jpg"; Mark "a.jpg";
                     Insert "images/b.jpg"; Insert "images/c.jpg"]
              (Fixtures.empty_manager 2, Fixtures.disk Fixtures.six_files None) in
  filenames st.1 = ["c.jpg"; "b.jpg"] /\ is_uploaded "a.jpg" st.1 = true.
Proof. vm_compute. done. Qed.

(** C10.  [mark_as_uploaded f] returns normally whatever the ledger file
    does; [f] is in the in-memory set from then on, through any later run
    of operations; and when the file rejects the write from its first
    call, the ledger on disk is left as it was. *)
Theorem mark_as_uploaded_in_memory (f : string) (self : LocalStorageManager)
    (w : world) :
  (mark_as_uploaded f self w).1.1 = Returns tt
  /\ is_uploaded f (mark_as_uploaded f self w).1.2 = true
  /\ (forall ops,
        is_uploaded f
          (run_ops ops ((mark_as_uploaded f self w).1.2,
                        (mark_as_uploaded f self w).2)).1 = true)
  /\ w_ledger (mark_as_uploaded f self
                 (set_ledger (w_ledger w) (Some O) w)).2 = w_ledger w.
Proof.
  split_and!.
  - apply mark_as_uploaded_returns.
  - apply (marked_stays f self w []).
  - apply marked_stays.
  - unfold mark_as_uploaded, _save_upload_status, save_ops. simpl. done.
Qed.

(** The ledger on disk holds [a.jpg] only; the disk is full; [b.jpg] is
    marked: memory knows it, the file does not. *)
Example stale_ledger_example :
  let w := set_ledger (w_ledger Fixtures.disk_with_a) (Some O) Fixtures.disk_with_a in
  let r := mark_as_uploaded "b.jpg" Fixtures.manager_with_a w in
  r.1.1 = Returns tt
  /\ is_uploaded "b.jpg" r.1.2 = true
  /\ w_ledger r.2 = Some (Json.dumps ["a.jpg"] "2023-12-31T00:00:00").
Proof. vm_compute. done. Qed.

(** ** Saving the ledger *)

Section Save.

Lemma append_cons (x : ascii) (a b : string) :
  String x a +:+ b = String x (a +:+ b).
Proof. reflexivity. Qed.

Lemma append_nil_r (a : string) : a +:+ EmptyString = a.
Proof.
  induction a as [|x a IH]; [done|]. by rewrite append_cons, IH.
Qed.

Lemma append_assoc (a b c : string) : (a +:+ b) +:+ c = a +:+ (b +:+ c).
Proof.
  induction a as [|x a IH]; [done|]. by rewrite !append_cons, IH.
Qed.

Lemma prefix_append (a b : string) : String.prefix a (a +:+ b) = true.
Proof.
  induction a as [|x a IH]; [by destruct b|].
  rewrite append_cons. simpl.
  destruct (ascii_dec x x); [done|congruence].
Qed.

Lemma concat_chunks_app (l1 l2 : list string) :
  Json.concat_chunks (l1 ++ l2)
  = Json.concat_chunks l1 +:+ Json.concat_chunks l2.
Proof.
  unfold Json.concat_chunks.
  induction l1 as [|c l1 IH]; simpl; [done|].
  by rewrite IH, append_assoc.
Qed.

(** Writes on a file that accepts them append the chunks in order. *)
Lemma run_writes chunks : forall w c,
  w_ledger_io w = None ->
  w_ledger w = Some c ->
  (run_file_ops (FWrite <$> chunks) w).1 = Returns tt
  /\ w_ledger (run_file_ops (FWrite <$> chunks) w).2
     = Some (c +:+ Json.concat_chunks chunks)
  /\ w_ledger_io (run_file_ops (FWrite <$> chunks) w).2 = None.
Proof.
  induction chunks as [|x chunks IH]; intros w c Hio Hc.
  - simpl. repeat split; [|done]. by rewrite Hc, append_nil_r.
  - rewrite fmap_cons. cbn [run_file_ops]. rewrite Hio, Hc.
    cbn [file_step default fmap option_fmap option_map]. unfold id.
    destruct (IH (set_ledger (Some (c +:+ x)) None w) (c +:+ x))
      as (H1 & H2 & H3); [done..|].
    repeat split; [done| |done].
    rewrite H2. f_equal. unfold Json.concat_chunks. simpl.
    by rewrite append_assoc.
Qed.

(** A save stopped after [k >= 1] calls leaves the chunks written so
    far and nothing of the old content. *)
Lemma interrupted_save_written k self w :
  interrupted_save (S k) self w
  = Some (Json.concat_chunks
            (take k (Json.dump_chunks (elements (uploaded_images self))
                       (w_now w)))).
Proof.
  unfold interrupted_save, save_ops.
  rewrite firstn_cons, <- fmap_take. cbn [run_file_ops].
  change (w_ledger_io (set_ledger (w_ledger w) None w)) with (@None nat).
  cbn [file_step fmap option_fmap option_map].
  set (w0 := set_ledger (Some EmptyString) None (set_ledger (w_ledger w) None w)).
  destruct (run_writes
              (take k (Json.dump_chunks (elements (uploaded_images self)) (w_now w)))
              w0 EmptyString) as (_ & H & _); done.
Qed.

Lemma save_complete self w :
  w_ledger_io w = None ->
  w_ledger (_save_upload_status self w).2 = Some (ledger_document self w).
Proof.
  intros Hio. unfold _save_upload_status, save_ops.
  cbn [run_file_ops]. rewrite Hio.
  cbn [file_step fmap option_fmap option_map].
  set (w0 := set_ledger (Some EmptyString) None w).
  destruct (run_writes
              (Json.dump_chunks (elements (uploaded_images self)) (w_now w))
              w0 EmptyString) as (H1 & H2 & _); [done..|].
  destruct (run_file_ops _ w0) as [[[]|?] w1]; simpl in *; [|done].
  by rewrite H2.
Qed.

Lemma mark_as_uploaded_world name self w :
  (mark_as_uploaded name self w).2
  = (_save_upload_status
       (set_uploaded ({[name]} ∪ uploaded_images self) self) w).2.
Proof.
  unfold mark_as_uploaded.
  destruct (_save_upload_status _ w) as [[?|?] ?]; done.
Qed.

End Save.

(** C3, as stated, fails: the ledger holds [a.jpg]; the save that adds
    [b.jpg] is stopped after its first call, the [open(..., 'w')]: the
    file is empty, neither the old ledger nor the new one. *)
Lemma ledger_save_not_atomic :
  ~ save_is_atomic
      (mark_as_uploaded "b.jpg" Fixtures.manager_with_a Fixtures.disk_with_a).1.2
      Fixtures.disk_with_a.
Proof.
  intros H. specialize (H 1%nat).
  vm_compute in H. destruct H as [H|H]; discriminate H.
Qed.

(** C3, amended.  [mark_as_uploaded] rewrites the ledger file in place:
    on a file that accepts the writes the complete new document is left;
    a save that stops before its first call leaves the old file, and one
    that stops after [k >= 1] calls leaves a prefix of the new document
    (empty right after the [open]), with nothing of the old content. *)
Theorem ledger_saved_in_place (name : string) (self : LocalStorageManager)
    (w : world) :
  w_ledger_io w = None ->
  let self' := (mark_as_uploaded name self w).1.2 in
  w_ledger (mark_as_uploaded name self w).2 = Some (ledger_document self' w)
  /\ interrupted_save 0 self' w = w_ledger w
  /\ interrupted_save 1 self' w = Some EmptyString
  /\ forall k, exists written,
       interrupted_save (S k) self' w = Some written
       /\ String.prefix written (ledger_document self' w) = true.
Proof.
  intros Hio self'. subst self'. rewrite mark_as_uploaded_self.
  set (self' := set_uploaded _ self).
  split_and!.
  - rewrite mark_as_uploaded_world. by apply save_complete.
  - done.
  - by rewrite interrupted_save_written.
  - intros k. eexists. split; [apply interrupted_save_written|].
    unfold ledger_document, Json.dumps.
    rewrite <- (take_drop k (Json.dump_chunks _ _)) at 2.
    rewrite concat_chunks_app. apply prefix_append.
Qed.

Lemma ledger_saved_in_place_witness :
  let w := Fixtures.disk_with_a in
  let self' := (mark_as_uploaded "b.jpg" Fixtures.manager_with_a w).1.2 in
  w_ledger (mark_as_uploaded "b.jpg" Fixtures.manager_with_a w).2
    = Some (ledger_document self' w)
  /\ interrupted_save 0 self' w = w_ledger w
  /\ interrupted_save 1 self' w = Some EmptyString
  /\ forall k, exists written,
       interrupted_save (S k) self' w = Some written
       /\ String.prefix written (ledger_document self' w) = true.
Proof.
  apply (ledger_saved_in_place "b.jpg" Fixtures.manager_with_a Fixtures.disk_with_a).
  reflexivity.
Defined.

(** ** Construction and the capacity *)

Section Capacity.

Lemma add_image_zero_capacity path self w :
  max_images self = 0 ->
  Os.path_exists w path = true ->
  (add_image path self w).1.1 = true
  /\ images (add_image path self w).1.2 = [].
Proof.
  intros Hcap Hex. apply bool_decide_eq_true in Hex as [s Hs].
  destruct (add_image_existing path self w s) as (w' & -> & _); [lia|done|].
  simpl. by rewrite Hcap.
Qed.

Lemma add_image_negative_capacity path self w :
  max_images self < 0 ->
  Os.path_exists w path = true ->
  (add_image path self w).1.1 = false
  /\ images (add_image path self w).1.2 = [].
Proof.
  intros Hcap Hex. unfold add_image, add_image_try. rewrite Hex. simpl.
  apply bool_decide_eq_true in Hex as [s Hs]. unfold Os.stat. rewrite Hs.
  unfold _manage_queue_size. simpl.
  pose proof (manage_loop_negative (max_images self) (storage_dir self)
                (make_info (basename path) path s :: images self) w Hcap) as H.
  destruct (manage_loop _ _ _ w) as [[o l] w']. simpl in H.
  by injection H as -> ->.
Qed.

End Capacity.

(** C9, as stated, fails: construction with capacity 0, and with capacity
    -3, returns a manager and raises nothing. *)
Lemma init_accepts_bad_capacity :
  ~ (exists e, __init__ Fixtures.no_json 0 "images"
                 (Fixtures.disk Fixtures.six_files None) = Raises e)
  /\ ~ (exists e, __init__ Fixtures.no_json (-3) "images"
                    (Fixtures.disk Fixtures.six_files None) = Raises e).
Proof.
  split; intros [e H]; vm_compute in H; discriminate H.
Qed.

(** C9, amended.  Construction never looks at the capacity: whether it
    returns or raises is the same under every capacity, and the manager
    it returns stores the capacity as given, zero and negative values
    included.  The misconfiguration shows at run time: under capacity 0
    [add_image] of an existing file answers [True] and leaves the queue
    empty; under a negative capacity it answers [False] and leaves the
    queue empty. *)
Theorem capacity_never_validated
    (json : string -> outcome (list string)) (cap : Z) (dir : string)
    (w : world) :
  (forall cap',
     returned (__init__ json cap' dir w) = returned (__init__ json cap dir w))
  /\ forall self,
       __init__ json cap dir w = Returns self ->
       max_images self = cap
       /\ forall path w',
            Os.path_exists w' path = true ->
            (cap = 0 ->
               (add_image path self w').1.1 = true
               /\ images (add_image path self w').1.2 = [])
            /\ (cap < 0 ->
                  (add_image path self w').1.1 = false
                  /\ images (add_image path self w').1.2 = []).
Proof.
  unfold __init__, Os.makedirs, _load_images.
  destruct (Os.path_exists w dir) eqn:E; simpl; [by split|].
  split; [done|]. intros self [= <-].
  assert (Hm : forall s, max_images (_load_upload_status json s w) = max_images s).
  { intros s. unfold _load_upload_status.
    destruct (w_ledger w); [|done]. by destruct (json s0). }
  rewrite Hm. simpl. split; [done|].
  intros path w' Hex. split; intros Hcap.
  - apply add_image_zero_capacity; [|done]. by rewrite Hm.
  - apply add_image_negative_capacity; [|done]. by rewrite Hm.
Qed.

Lemma capacity_never_validated_witness :
  let w := Fixtures.disk Fixtures.six_files None in
  returned (__init__ Fixtures.no_json (-3) "images" w)
  = returned (__init__ Fixtures.no_json 50 "images" w)
  /\ exists self,
       __init__ Fixtures.no_json (-3) "images" w = Returns self
       /\ max_images self = -3
       /\ (add_image "images/a.jpg" self w).1.1 = false
       /\ images (add_image "images/a.jpg" self w).1.2 = [].
Proof.
  intros w.
  destruct (capacity_never_validated Fixtures.no_json 50 "images" w)
    as (Hsame & _).
  split; [exact (Hsame (-3))|].
  destruct (__init__ Fixtures.no_json (-3) "images" w) as [self|e] eqn:E;
    [|vm_compute in E; discriminate E].
  exists self.
  destruct (capacity_never_validated Fixtures.no_json (-3) "images" w)
    as (_ & H).
  destruct (H self E) as (Hmax & Hrun).
  destruct (Hrun "images/a.jpg" w) as (_ & Hneg); [reflexivity|].
  destruct Hneg as (H1 & H2); [lia|]. done.
Defined.

(** ** File names in the queue *)

Section Names.

Lemma pop_named_sublist name l x r :
  pop_named name l = Some (x, r) -> r `sublist_of` l.
Proof.
  revert x r. induction l as [|y l IH]; intros x r; simpl; [done|].
  destruct (String.eqb (filename y) name).
  - intros [= <- <-]. by apply sublist_cons.
  - destruct (pop_named name l) as [[z r']|]; [|done].
    intros [= <- <-]. apply sublist_skip. by eapply IH.
Qed.

Lemma remove_image_sublist name self w :
  images (remove_image name self w).1.2 `sublist_of` images self.
Proof.
  unfold remove_image.
  destruct (pop_named name (images self)) as [[removed rest]|] eqn:E; [|done].
  apply pop_named_sublist in E.
  destruct (Os.path_exists w (filepath removed)); [|done].
  by destruct (Os.remove w (filepath removed)).
Qed.

(** What [add_image] leaves in the queue: the old list when the file is
    missing, otherwise a prefix of the list with the new entry at its
    head. *)
Lemma add_image_images path self w :
  images (add_image path self w).1.2 = images self
  \/ exists s k,
       w_files w !! path = Some s
       /\ images (add_image path self w).1.2
          = take k (make_info (basename path) path s :: images self).
Proof.
  unfold add_image, add_image_try, Os.path_exists, Os.stat.
  destruct (w_files w !! path) as [s|] eqn:Hs.
  - rewrite bool_decide_eq_true_2 by eauto. simpl. right.
    unfold _manage_queue_size. simpl.
    destruct (manage_loop_prefix (max_images self) (storage_dir self)
                (make_info (basename path) path s :: images self) w) as [k Hk].
    exists s, k. split; [done|].
    destruct (manage_loop _ _ _ w) as [[[?|?] l] w']; simpl in *; by subst.
  - rewrite bool_decide_eq_false_2 by (by intros [? ?]). simpl. by left.
Qed.

Lemma run_op_unique op st :
  NoDup (filenames st.1) ->
  match op with
  | Insert path => basename path ∉ filenames st.1
  | _ => True
  end ->
  NoDup (filenames (run_op op st).1).
Proof.
  destruct st as [self w]. unfold filenames. simpl.
  intros Hnd Hfresh. destruct op as [path|name|name]; simpl.
  - destruct (add_image_images path self w) as [H|(s & k & _ & H)];
      destruct (add_image path self w) as [[b self'] w']; simpl in *;
      rewrite H; [done|].
    rewrite fmap_take. eapply sublist_NoDup; [|apply sublist_take].
    rewrite fmap_cons. simpl. by apply NoDup_cons.
  - pose proof (remove_image_sublist name self w) as H.
    destruct (remove_image name self w) as [[b self'] w']; simpl in *.
    eapply sublist_NoDup; [exact Hnd|]. by apply fmap_sublist.
  - pose proof (mark_as_uploaded_self name self w) as H.
    destruct (mark_as_uploaded name self w) as [[o self'] w']; simpl in *.
    by rewrite H.
Qed.

End Names.

(** C7, as stated, fails: the same capture inserted twice sits in the
    queue twice, under one file name; so do two files of the same name
    taken from different directories. *)
Lemma filename_not_unique :
  ~ NoDup (filenames
             (run_ops [Insert "images/a.jpg"; Insert "images/a.jpg"]
                (Fixtures.empty_manager 50,
                 Fixtures.disk Fixtures.six_files None)).1).
Proof.
  vm_compute. intros H. apply NoDup_cons in H as [H _].
  apply H. by left.
Qed.

(** C7, amended.  [add_image] does not look for an entry of the same
    name.  From a queue whose file names are distinct, a run of inserts,
    removals and marks keeps them distinct provided every insert brings a
    base name that the queue does not hold at that moment; removals and
    evictions never break the property.  One insert of a path on which
    [os.stat] returns, under a capacity that is not negative, leaves two entries of the same
    name whenever an entry of that base name is among the first
    [max_images - 1] entries, which are those the insert keeps; when the
    names were distinct and no such entry is kept, they are distinct
    after the insert. *)
Theorem filenames_unique_when_fresh (ops : list queue_op)
    (st : LocalStorageManager * world) :
  (NoDup (filenames st.1) ->
   inserts_fresh ops st ->
   NoDup (filenames (run_ops ops st).1))
  /\ forall path s,
       Os.stat st.2 path = Returns s ->
       0 <= max_images st.1 ->
       let kept := take (Z.to_nat (max_images st.1) - 1) (filenames st.1) in
       let after := filenames (add_image path st.1 st.2).1.2 in
       (basename path ∈ kept -> ~ NoDup after)
       /\ (NoDup (filenames st.1) -> basename path ∉ kept -> NoDup after).
Proof.
  split.
  - revert st. induction ops as [|op ops IH]; intros st Hnd Hfresh; [done|].
    destruct Hfresh as [Hop Hlater]. simpl.
    apply IH; [|done]. by apply run_op_unique.
  - intros path s Hstat Hcap kept after. subst kept after.
    assert (Hs : w_files st.2 !! path = Some s).
    { unfold Os.stat in Hstat. destruct (w_files st.2 !! path); congruence. }
    destruct (add_image_existing path st.1 st.2 s Hcap Hs) as (w' & -> & _).
    unfold filenames. simpl. rewrite fmap_take, fmap_cons. simpl.
    destruct (Z.to_nat (max_images st.1)) as [|m]; simpl.
    + split; [intros H; by apply elem_of_nil in H|]. intros _ _. constructor.
    + rewrite Nat.sub_0_r. split.
      * intros Hin Hnd. by apply NoDup_cons in Hnd as [Hnd _].
      * intros Hnd Hnin. apply NoDup_cons. split; [done|].
        eapply sublist_NoDup; [exact Hnd|apply sublist_take].
Qed.

Lemma filenames_unique_when_fresh_witness :
  let st0 := (Fixtures.empty_manager 2, Fixtures.disk Fixtures.six_files None) in
  let st1 := run_ops [Insert "images/a.jpg"] st0 in
  let st2 := run_ops [Insert "images/b.jpg"] st1 in
  NoDup (filenames
           (run_ops [Insert "images/a.jpg"; Insert "images/b.jpg";
                     Remove "a.jpg"; Insert "images/d.jpg";
                     Insert "images/c.jpg"] st0).1)
  /\ ~ NoDup (filenames (add_image "images/a.jpg" st1.1 st1.2).1.2)
  /\ NoDup (filenames (add_image "images/a.jpg" st2.1 st2.2).1.2).
Proof.
  intros st0 st1 st2. split; [|split].
  - apply filenames_unique_when_fresh.
    + apply (bool_decide_unpack _). vm_compute. exact I.
    + cbn [inserts_fresh].
      repeat split; apply (bool_decide_unpack _); vm_compute; exact I.
  - destruct (filenames_unique_when_fresh [] st1) as (_ & H).
    destruct (H "images/a.jpg" (Fixtures.file_at 1)) as (Hdup & _).
    + reflexivity.
    + apply (bool_decide_unpack _). vm_compute. exact I.
    + apply Hdup. apply (bool_decide_unpack _). vm_compute. exact I.
  - destruct (filenames_unique_when_fresh [] st2) as (_ & H).
    destruct (H "images/a.jpg" (Fixtures.file_at 1)) as (_ & Hok).
    + reflexivity.
    + apply (bool_decide_unpack _). vm_compute. exact I.
    + apply Hok; apply (bool_decide_unpack _); vm_compute; exact I.
Defined.

(** ** The upload paths *)

(** Marking a name takes the entries of that name, and no other, out
    of the upload queue. *)
Lemma get_upload_queue_marked name sm :
  get_upload_queue (set_uploaded ({[name]} ∪ uploaded_images sm) sm)
  = filter (fun img => filename img ≠ name) (get_upload_queue sm).
Proof.
  unfold get_upload_queue. rewrite list_filter_filter. simpl.
  apply list_filter_iff. intros img. unfold is_uploaded. simpl.
  rewrite !bool_decide_eq_false. set_solver.
Qed.

Section Uploads.
Context {U : Type}.
Variable upload : string -> U -> upload_result * U.

Lemma call_mark_some name (a : app U) sm :
  storage_manager a = Some sm ->
  exists w',
    call_mark name a =
      (Returns tt,
       {| storage_manager :=
            Some (set_uploaded ({[name]} ∪ uploaded_images sm) sm);
          uploader := uploader a; status := status a; app_world := w';
          upload_log := upload_log a |}).
Proof.
  intros Hsm. unfold call_mark. rewrite Hsm.
  pose proof (mark_as_uploaded_returns name sm (app_world a)) as H1.
  pose proof (mark_as_uploaded_self name sm (app_world a)) as H2.
  destruct (mark_as_uploaded name sm (app_world a)) as [[o sm'] w'].
  simpl in *. subst. by exists w'.
Qed.

(** [force_loop] calls the uploader on every entry it is given, in
    order, whatever the answers; it marks the entries whose upload
    succeeded and counts the others. *)
Lemma force_loop_spec queue : forall (a : app U) sm u up fl,
  storage_manager a = Some sm ->
  uploader a = Some u ->
  let answers := upload_answers upload (filepath <$> queue) u in
  exists a' sm',
    force_loop upload queue up fl a
      = (up + Z.of_nat (length (filter (fun r => succeeded r = true) answers)),
         fl + Z.of_nat (length (filter (fun r => succeeded r = false) answers)),
         a')
    /\ storage_manager a' = Some sm'
    /\ images sm' = images sm
    /\ uploaded_images sm'
       = list_to_set (marked_names queue answers) ∪ uploaded_images sm
    /\ upload_log a' = upload_log a ++ (filepath <$> queue).
Proof.
  induction queue as [|img queue IH]; intros a sm u up fl Hsm Hu; simpl.
  - exists a, sm. rewrite !Z.add_0_r, app_nil_r. repeat split; [done|].
    unfold marked_names. simpl. set_solver.
  - unfold call_upload. rewrite Hu.
    destruct (upload (filepath img) u) as [r u'] eqn:Hup. simpl.
    set (a1 := {| storage_manager := storage_manager a; uploader := Some u';
                  status := status a; app_world := app_world a;
                  upload_log := upload_log a ++ [filepath img] |}).
    assert (Hfail : succeeded r = false ->
      exists a' sm',
        force_loop upload queue up (fl + 1) (with_status count_failure a1)
        = (up + Z.of_nat (length (filter (fun r => succeeded r = true)
                   (r :: upload_answers upload (filepath <$> queue) u'))),
           fl + Z.of_nat (length (filter (fun r => succeeded r = false)
                   (r :: upload_answers upload (filepath <$> queue) u'))),
           a')
        /\ storage_manager a' = Some sm'
        /\ images sm' = images sm
        /\ uploaded_images sm'
           = list_to_set (marked_names (img :: queue)
               (r :: upload_answers upload (filepath <$> queue) u'))
             ∪ uploaded_images sm
        /\ upload_log a' = upload_log a ++ filepath img :: (filepath <$> queue)).
    { intros Hr.
      destruct (IH (with_status count_failure a1) sm u' up (fl + 1))
        as (a' & sm' & Hrun & Hsm' & Himg & Hset & Hlog); [done..|].
      exists a', sm'. rewrite Hrun.
      rewrite (filter_cons_False (fun r => succeeded r = true)) by (by rewrite Hr).
      rewrite (filter_cons_True (fun r => succeeded r = false)) by done.
      unfold marked_names in *. simpl. rewrite Hr.
      repeat split; try done.
      - do 2 f_equal; unfold fmap; lia.
      - rewrite Hlog. simpl. by rewrite <- app_assoc. }
    destruct r as [location|]; [|by apply Hfail].
    destruct (truthy location) eqn:Ht; [|by apply Hfail].
    destruct (call_mark_some (filename img) (with_status count_success a1) sm)
      as (w' & ->); [done|].
    match goal with
    | |- context [force_loop upload queue _ _ ?x] => set (a2 := x)
    end.
    destruct (IH a2 (set_uploaded ({[filename img]} ∪ uploaded_images sm) sm)
                u' (up + 1) fl)
      as (a' & sm' & Hrun & Hsm' & Himg & Hset & Hlog); [done..|].
    exists a', sm'. rewrite Hrun.
    rewrite (filter_cons_True (fun r => succeeded r = true)) by done.
    rewrite (filter_cons_False (fun r => succeeded r = false))
      by (simpl; by rewrite Ht).
    unfold marked_names in *. simpl. rewrite Ht.
    repeat split; try done.
    + do 2 f_equal; unfold fmap; lia.
    + rewrite Hset. simpl. set_solver.
    + rewrite Hlog. simpl. by rewrite <- app_assoc.
Qed.


(** One turn of the loop of the worker, on an upload that succeeds and
    on one that fails. *)
Lemma upload_batch_success img rest (a : app U) sm u r u' :
  storage_manager a = Some sm ->
  uploader a = Some u ->
  upload (filepath img) u = (r, u') ->
  succeeded r = true ->
  exists w',
    upload_batch upload (img :: rest) a
    = upload_batch upload rest
        {| storage_manager :=
             Some (set_uploaded ({[filename img]} ∪ uploaded_images sm) sm);
           uploader := Some u'; status := count_success (status a);
           app_world := w';
           upload_log := upload_log a ++ [filepath img] |}.
Proof.
  intros Hsm Hu Hup Hr. cbn [upload_batch]. unfold call_upload.
  rewrite Hu, Hup. destruct r as [location|]; [|done]. simpl in Hr.
  rewrite Hr.
  match goal with
  | |- context [call_mark (filename img) ?x] =>
      destruct (call_mark_some (filename img) x sm Hsm) as (w' & ->)
  end.
  by exists w'.
Qed.

Lemma upload_batch_failure img rest (a : app U) u r u' :
  uploader a = Some u ->
  upload (filepath img) u = (r, u') ->
  succeeded r = false ->
  upload_batch upload (img :: rest) a
  = {| storage_manager := storage_manager a; uploader := Some u';
       status := count_failure (status a); app_world := app_world a;
       upload_log := upload_log a ++ [filepath img] |}.
Proof.
  intros Hu Hup Hr. cbn [upload_batch]. unfold call_upload.
  rewrite Hu, Hup. destruct r as [location|]; [|done]. simpl in Hr.
  by rewrite Hr.
Qed.

(** The loop of the worker calls the uploader on the entries of its
    batch from the first one on, and on none after the first failure. *)
Lemma upload_batch_prefix batch : forall (a : app U) sm,
  storage_manager a = Some sm ->
  exists k sm',
    upload_log (upload_batch upload batch a)
      = upload_log a ++ take k (filepath <$> batch)
    /\ storage_manager (upload_batch upload batch a) = Some sm'
    /\ images sm' = images sm
    /\ uploaded_images sm ⊆ uploaded_images sm'.
Proof.
  induction batch as [|img batch IH]; intros a sm Hsm.
  - exists O, sm. simpl. by rewrite app_nil_r.
  - simpl. unfold call_upload.
    destruct (uploader a) as [u|] eqn:Hu.
    + destruct (upload (filepath img) u) as [r u'] eqn:Hup.
      set (a1 := {| storage_manager := storage_manager a; uploader := Some u';
                    status := status a; app_world := app_world a;
                    upload_log := upload_log a ++ [filepath img] |}).
      assert (Hstop : exists k sm',
                upload_log (with_status count_failure a1)
                  = upload_log a ++ take k (filepath <$> img :: batch)
                /\ storage_manager (with_status count_failure a1) = Some sm'
                /\ images sm' = images sm
                /\ uploaded_images sm ⊆ uploaded_images sm').
      { exists 1%nat, sm. simpl. by rewrite take_0. }
      destruct r as [location|]; [|done].
      destruct (truthy location); [|done].
      destruct (call_mark_some (filename img) (with_status count_success a1) sm)
        as (w' & ->); [done|].
      match goal with
      | |- context [upload_batch upload batch ?x] => set (a2 := x)
      end.
      destruct (IH a2 (set_uploaded ({[filename img]} ∪ uploaded_images sm) sm))
        as (k & sm' & Hlog & Hsm' & Himg & Hsub); [done|].
      exists (S k), sm'. rewrite Hlog. simpl. rewrite <- app_assoc.
      repeat split; try done. simpl in Hsub. set_solver.
    + exists O, sm. simpl. by rewrite app_nil_r.
Qed.

End Uploads.

(** C2, as stated, fails: three entries are pending; the upload of the
    first one attempted, [c.jpg], fails; [force_upload] goes on, calls the
    uploader on [b.jpg] and [a.jpg] and marks both. *)
Lemma force_upload_goes_on_after_failure :
  let w := Fixtures.disk Fixtures.six_files None in
  let sm := (add_images ["images/a.jpg"; "images/b.jpg"; "images/c.jpg"]
               (Fixtures.empty_manager 50) w).1.2 in
  let r := force_upload Fixtures.scripted true
             (Fixtures.app_of sm w [false; true; true]) in
  filepath <$> get_upload_queue sm
    = ["images/c.jpg"; "images/b.jpg"; "images/a.jpg"]
  /\ r.1 = ForceUploadDone 2 1 3
  /\ upload_log r.2 = ["images/c.jpg"; "images/b.jpg"; "images/a.jpg"]
  /\ (uploaded_images <$> storage_manager r.2)
     = Some ({["b.jpg"; "a.jpg"]} : gset string).
Proof. vm_compute. done. Qed.

(** C2, amended.  [force_upload] has no abort: with both services set
    and the network up, it calls the uploader on every pending entry of
    its snapshot, in queue order, whatever the earlier answers; it marks
    exactly the entries whose upload returned a location, and reports the
    two counts and the number of local images. *)
Theorem force_upload_attempts_all {U : Type}
    (upload : string -> U -> upload_result * U) (a : app U)
    (sm : LocalStorageManager) (u : U) :
  storage_manager a = Some sm ->
  uploader a = Some u ->
  let queue := get_upload_queue sm in
  let answers := upload_answers upload (filepath <$> queue) u in
  exists a' sm',
    force_upload upload true a
      = (ForceUploadDone
           (Z.of_nat (length (filter (fun r => succeeded r = true) answers)))
           (Z.of_nat (length (filter (fun r => succeeded r = false) answers)))
           (get_image_count sm),
         a')
    /\ storage_manager a' = Some sm'
    /\ upload_log a' = upload_log a ++ (filepath <$> queue)
    /\ uploaded_images sm'
       = list_to_set (marked_names queue answers) ∪ uploaded_images sm.
Proof.
  intros Hsm Hu queue answers. unfold force_upload. rewrite Hsm, Hu. simpl.
  destruct (force_loop_spec upload queue a sm u 0 0 Hsm Hu)
    as (a' & sm' & Hrun & Hsm' & Himg & Hset & Hlog).
  exists a', sm'. fold queue. rewrite Hrun, Hsm'. 
  unfold get_image_count. rewrite Himg. done.
Qed.

Lemma force_upload_attempts_all_witness :
  let w := Fixtures.disk Fixtures.six_files None in
  let sm := (add_images ["images/a.jpg"; "images/b.jpg"; "images/c.jpg"]
               (Fixtures.empty_manager 50) w).1.2 in
  let a := Fixtures.app_of sm w [false; true; true] in
  let queue := get_upload_queue sm in
  let answers := upload_answers Fixtures.scripted (filepath <$> queue)
                   [false; true; true] in
  exists a' sm',
    force_upload Fixtures.scripted true a
      = (ForceUploadDone
           (Z.of_nat (length (filter (fun r => succeeded r = true) answers)))
           (Z.of_nat (length (filter (fun r => succeeded r = false) answers)))
           (get_image_count sm),
         a')
    /\ storage_manager a' = Some sm'
    /\ upload_log a' = upload_log a ++ (filepath <$> queue)
    /\ uploaded_images sm'
       = list_to_set (marked_names queue answers) ∪ uploaded_images sm.
Proof.
  intros w sm a queue answers.
  apply (force_upload_attempts_all Fixtures.scripted a sm [false; true; true]);
    reflexivity.
Defined.

(** ** One cycle of the upload worker *)

(** C1: the worker takes the head of the upload queue, and the queue is
    kept newest first.  Six captures are inserted, [a.jpg] first and
    [f.jpg] last, and every upload succeeds: the cycle uploads [f], [e],
    [d], [c], [b] in that order, the five newest from the newest down, and
    never calls the uploader on [a.jpg], the oldest pending entry. *)
Theorem drain_takes_newest_first :
  let w := Fixtures.disk Fixtures.six_files None in
  let sm := (add_images ["images/a.jpg"; "images/b.jpg"; "images/c.jpg";
                         "images/d.jpg"; "images/e.jpg"; "images/f.jpg"]
               (Fixtures.empty_manager 50) w).1.2 in
  let a' := upload_worker_cycle Fixtures.scripted true
              (Fixtures.app_of sm w []) in
  (fun img => (filename img, created img)) <$> get_upload_queue sm
    = [("f.jpg", 6); ("e.jpg", 5); ("d.jpg", 4);
       ("c.jpg", 3); ("b.jpg", 2); ("a.jpg", 1)]
  /\ upload_log a'
     = ["images/f.jpg"; "images/e.jpg"; "images/d.jpg"; "images/c.jpg";
        "images/b.jpg"]
  /\ (fun m => filename <$> get_upload_queue m) <$> storage_manager a'
     = Some ["a.jpg"].
Proof. vm_compute. done. Qed.

(** In general the cycle calls the uploader on a prefix of the first
    five entries of the upload queue, in queue order. *)
Lemma worker_cycle_attempts {U : Type}
    (upload : string -> U -> upload_result * U) (a : app U)
    (sm : LocalStorageManager) :
  storage_manager a = Some sm ->
  exists k,
    upload_log (upload_worker_cycle upload true a)
    = upload_log a ++ take k (filepath <$> take 5 (get_upload_queue sm)).
Proof.
  intros Hsm. unfold upload_worker_cycle.
  set (a1 := with_status _ a).
  assert (Hsm1 : storage_manager a1 = Some sm) by done.
  rewrite Hsm1.
  destruct (upload_batch_prefix upload (take 5 (get_upload_queue sm)) a1 sm Hsm1)
    as (k & sm' & Hlog & Hsm' & _).
  assert (Hb : match get_upload_queue sm with
               | [] => a1
               | _ :: _ => upload_batch upload (take 5 (get_upload_queue sm)) a1
               end = upload_batch upload (take 5 (get_upload_queue sm)) a1).
  { by destruct (get_upload_queue sm). }
  cbv zeta. rewrite Hb, Hsm'. exists k. exact Hlog.
Qed.

(** C6, as stated, fails: [d.jpg] was inserted twice, so five entries are
    pending, two of them under one name.  The first upload succeeds, the
    second fails: both entries of [d.jpg] count as uploaded and three
    entries stay pending, not four. *)
Lemma drain_abort_with_shared_name :
  let st := run_ops [Insert "images/a.jpg"; Insert "images/b.jpg";
                     Insert "images/c.jpg"; Insert "images/d.jpg";
                     Insert "images/d.jpg"]
              (Fixtures.empty_manager 50,
               Fixtures.disk Fixtures.six_files None) in
  let a' := upload_worker_cycle Fixtures.scripted true
              (Fixtures.app_of st.1 st.2 [true; false]) in
  filename <$> get_upload_queue st.1
    = ["d.jpg"; "d.jpg"; "c.jpg"; "b.jpg"; "a.jpg"]
  /\ upload_log a' = ["images/d.jpg"; "images/d.jpg"]
  /\ (fun m => filename <$> get_upload_queue m) <$> storage_manager a'
     = Some ["c.jpg"; "b.jpg"; "a.jpg"]
  /\ pending_uploads (status a') = 3.
Proof. vm_compute. done. Qed.

(** C6, amended.  Five entries of pairwise distinct file names are
    pending; the first upload returns a location and the second fails.
    One cycle of the worker then calls the uploader on these two entries
    only, marks the first one and nothing else, leaves the other four
    pending in their order, and counts one success and one failure. *)
Theorem drain_aborts_on_failure {U : Type}
    (upload : string -> U -> upload_result * U) (a : app U)
    (sm : LocalStorageManager) (u u1 u2 : U)
    (e1 e2 e3 e4 e5 : image_info) (r1 r2 : upload_result) :
  storage_manager a = Some sm ->
  uploader a = Some u ->
  get_upload_queue sm = [e1; e2; e3; e4; e5] ->
  NoDup (filename <$> [e1; e2; e3; e4; e5]) ->
  upload (filepath e1) u = (r1, u1) ->
  succeeded r1 = true ->
  upload (filepath e2) u1 = (r2, u2) ->
  succeeded r2 = false ->
  let a' := upload_worker_cycle upload true a in
  exists sm',
    storage_manager a' = Some sm'
    /\ images sm' = images sm
    /\ uploaded_images sm' = {[filename e1]} ∪ uploaded_images sm
    /\ get_upload_queue sm' = [e2; e3; e4; e5]
    /\ upload_log a' = upload_log a ++ [filepath e1; filepath e2]
    /\ successful_uploads (status a') = successful_uploads (status a) + 1
    /\ failed_uploads (status a') = failed_uploads (status a) + 1
    /\ pending_uploads (status a') = 4.
Proof.
  intros Hsm Hu Hq Hnd Hup1 Hr1 Hup2 Hr2 a'. subst a'.
  set (sm1 := set_uploaded ({[filename e1]} ∪ uploaded_images sm) sm).
  assert (Hq1 : get_upload_queue sm1 = [e2; e3; e4; e5]).
  { subst sm1. rewrite get_upload_queue_marked, Hq.
    rewrite !fmap_cons in Hnd.
    apply NoDup_cons in Hnd as [Hn1 _].
    rewrite filter_cons_False by (intros H; by apply H).
    rewrite !filter_cons_True, filter_nil; [done|intros E; apply Hn1; rewrite <- E..].
    all: set_solver. }
  unfold upload_worker_cycle.
  set (a1 := with_status _ a).
  assert (Hsm1 : storage_manager a1 = Some sm) by done.
  rewrite Hsm1, Hq. cbv zeta. cbn [take].
  destruct (upload_batch_success upload e1 [e2; e3; e4; e5] a1 sm u r1 u1)
    as (w' & ->); [done..|].
  rewrite (upload_batch_failure upload e2 [e3; e4; e5] _ u1 r2 u2) by done.
  exists sm1. cbn.
  change (filter _ (images sm)) with (get_upload_queue sm1).
  rewrite Hq1, <- app_assoc. done.
Qed.

Lemma drain_aborts_on_failure_witness :
  let st := run_ops [Insert "images/a.jpg"; Insert "images/b.jpg";
                     Insert "images/c.jpg"; Insert "images/d.jpg";
                     Insert "images/e.jpg"]
              (Fixtures.empty_manager 50,
               Fixtures.disk Fixtures.six_files None) in
  let a := Fixtures.app_of st.1 st.2 [true; false] in
  let a' := upload_worker_cycle Fixtures.scripted true a in
  exists sm',
    storage_manager a' = Some sm'
    /\ images sm' = images st.1
    /\ uploaded_images sm' = {["e.jpg"]} ∪ uploaded_images st.1
    /\ filename <$> get_upload_queue sm' = ["d.jpg"; "c.jpg"; "b.jpg"; "a.jpg"]
    /\ upload_log a' = ["images/e.jpg"; "images/d.jpg"]
    /\ successful_uploads (status a') = 1
    /\ failed_uploads (status a') = 1
    /\ pending_uploads (status a') = 4.
Proof.
  intros st a a'.
  destruct (drain_aborts_on_failure Fixtures.scripted a st.1
              [true; false] [false] []
              (make_info "e.jpg" "images/e.jpg" (Fixtures.file_at 5))
              (make_info "d.jpg" "images/d.jpg" (Fixtures.file_at 4))
              (make_info "c.jpg" "images/c.jpg" (Fixtures.file_at 3))
              (make_info "b.jpg" "images/b.jpg" (Fixtures.file_at 2))
              (make_info "a.jpg" "images/a.jpg" (Fixtures.file_at 1))
              (UploadReturns (Some "s3://bucket/images/e.jpg"))
              (UploadReturns None))
    as (sm' & H1 & H2 & H3 & H4 & H5 & H6 & H7 & H8);
    try reflexivity.
  - apply (bool_decide_unpack _). vm_compute. exact I.
  - exists sm'. fold a'. rewrite H4. repeat split; done.
Defined.

(** ** The poll loop *)

Section PollLoop.

Lemma falling_edges_app prev s1 s2 :
  falling_edges prev (s1 ++ s2)
  = (falling_edges prev s1 + falling_edges (default prev (last s1)) s2)%nat.
Proof.
  revert prev. induction s1 as [|v s1 IH]; intros prev; [done|].
  simpl. rewrite IH.
  assert (default prev (last (v :: s1)) = default v (last s1)) as ->.
  { destruct s1 as [|v' s1]; [done|]. rewrite last_cons_cons.
    destruct (last (v' :: s1)) eqn:E; [done|].
    by apply last_None in E. }
  by destruct ((prev =? 1) && (v =? 0)).
Qed.

Lemma falling_edges_low prev samples :
  Forall (fun v => v = 0) samples ->
  (falling_edges prev samples <= 1)%nat.
Proof.
  intros Hlow.
  assert (H0 : falling_edges 0 samples = O).
  { induction Hlow as [|v l -> _ IH]; [done|]. simpl. exact IH. }
  destruct Hlow as [|v l -> Hl]; [simpl; lia|].
  simpl. assert (falling_edges 0 l = O) as ->.
  { clear H0. induction Hl as [|v l -> _ IH]; [done|]. simpl. exact IH. }
  destruct (prev =? 1); simpl; lia.
Qed.

Lemma fired_count_app c evs1 evs2 :
  fired_count c (evs1 ++ evs2)
  = (fired_count c evs1 + fired_count c evs2)%nat.
Proof. unfold fired_count. by rewrite filter_app, length_app. Qed.

Lemma samples_of_app c evs1 evs2 :
  samples_of c (evs1 ++ evs2) = samples_of c evs1 ++ samples_of c evs2.
Proof. unfold samples_of. by rewrite omap_app. Qed.

(** A pass over channels that do not include [c] nor its pin neither
    samples [c] nor calls its handler nor touches the state of its pin. *)
Lemma scan_pins_other input chans c p : forall g,
  c ∉ chans.*1 -> p ∉ chans.*2 ->
  samples_of c (scan_pins input chans g).2 = []
  /\ fired_count c (scan_pins input chans g).2 = O
  /\ pin_states (scan_pins input chans g).1 !! p = pin_states g !! p.
Proof.
  induction chans as [|[c' p'] chans IH]; intros g Hc Hp; [done|].
  rewrite !fmap_cons in *. simpl in Hc, Hp.
  apply not_elem_of_cons in Hc as [Hc Hc'].
  apply not_elem_of_cons in Hp as [Hp Hp'].
  simpl.
  destruct (bool_decide (c' ∈ callbacks g)); simpl; [|by apply IH].
  destruct (input p') as [v|]; [|done].
  destruct (IH (set_pin_state p' v g) Hc' Hp') as (H1 & H2 & H3).
  destruct (scan_pins input chans (set_pin_state p' v g)) as [g' evs].
  simpl in *.
  assert (Hne : String.eqb c c' = false) by (by apply String.eqb_neq).
  repeat split.
  - unfold samples_of in *. simpl. rewrite Hne, omap_app, H1.
    by destruct ((default 1 (pin_states g !! p') =? 1) && (v =? 0)).
  - unfold fired_count in *. rewrite filter_cons_False by done.
    rewrite filter_app, length_app, H2.
    destruct ((default 1 (pin_states g !! p') =? 1) && (v =? 0)); [|done].
    rewrite filter_cons_False; [done|]. simpl. by rewrite Hne.
  - rewrite H3. by rewrite lookup_insert_ne.
Qed.

Lemma scan_pins_keeps input chans : forall g,
  pins (scan_pins input chans g).1 = pins g
  /\ callbacks (scan_pins input chans g).1 = callbacks g
  /\ monitoring (scan_pins input chans g).1 = monitoring g.
Proof.
  induction chans as [|[c' p'] chans IH]; intros g; [done|]. simpl.
  destruct (bool_decide (c' ∈ callbacks g)); simpl; [|by apply IH].
  destruct (input p') as [v|]; [|done].
  specialize (IH (set_pin_state p' v g)).
  by destruct (scan_pins input chans (set_pin_state p' v g)) as [g' evs].
Qed.

(** One pass: the handler of [c] is called exactly when the pass
    samples a falling edge on its line. *)
Lemma scan_pins_channel input chans c p : forall g,
  NoDup chans.*1 -> NoDup chans.*2 -> (c, p) ∈ chans ->
  let prev := default 1 (pin_states g !! p) in
  fired_count c (scan_pins input chans g).2
    = falling_edges prev (samples_of c (scan_pins input chans g).2)
  /\ default 1 (pin_states (scan_pins input chans g).1 !! p)
     = default prev (last (samples_of c (scan_pins input chans g).2)).
Proof.
  induction chans as [|[c' p'] chans IH]; intros g Hn1 Hn2 Hin prev;
    [by apply elem_of_nil in Hin|].
  rewrite !fmap_cons in *. simpl in Hn1, Hn2.
  apply NoDup_cons in Hn1 as [Hc' Hn1]. apply NoDup_cons in Hn2 as [Hp' Hn2].
  apply elem_of_cons in Hin as [[= <- <-]|Hin].
  - (* the channel at the head is [c] *)
    simpl.
    destruct (bool_decide (c ∈ callbacks g)); simpl.
    + destruct (input p) as [v|]; [|done].
      destruct (scan_pins_other input chans c p (set_pin_state p v g) Hc' Hp')
        as (H1 & H2 & H3).
      destruct (scan_pins input chans (set_pin_state p v g)) as [g' evs].
      simpl in *. fold prev.
      unfold samples_of in *. simpl. rewrite String.eqb_refl, omap_app, H1.
      unfold fired_count in *. rewrite filter_cons_False by done.
      rewrite filter_app, length_app, H2, H3, lookup_insert_eq.
      simpl. fold prev.
      destruct ((prev =? 1) && (v =? 0)); simpl.
      * rewrite filter_cons_True by (simpl; by rewrite String.eqb_refl). done.
      * done.
    + destruct (scan_pins_other input chans c p g Hc' Hp') as (H1 & H2 & H3).
      by rewrite H1, H2, H3.
  - (* [c] comes later; the head is another channel on another pin *)
    assert (Hc : c ≠ c').
    { intros ->. apply Hc'. apply list_elem_of_fmap. by exists (c', p). }
    assert (Hp : p ≠ p').
    { intros ->. apply Hp'. apply list_elem_of_fmap. by exists (c, p'). }
    simpl.
    destruct (bool_decide (c' ∈ callbacks g)); simpl; [|by apply IH].
    destruct (input p') as [v|]; [|done].
    destruct (IH (set_pin_state p' v g) Hn1 Hn2 Hin) as (H1 & H2).
    destruct (scan_pins input chans (set_pin_state p' v g)) as [g' evs].
    simpl in *. rewrite lookup_insert_ne in H1, H2 by done. fold prev in H1, H2.
    assert (Hne : String.eqb c c' = false) by (by apply String.eqb_neq).
    unfold samples_of in *. simpl. rewrite Hne, omap_app.
    unfold fired_count in *. rewrite filter_cons_False by done.
    rewrite filter_app, length_app.
    destruct ((default 1 (pin_states g !! p') =? 1) && (v =? 0)); simpl.
    * rewrite filter_cons_False by (simpl; by rewrite Hne). done.
    * done.
Qed.

(** The whole run: the handler of [c] is called once for each falling
    edge among the samples taken on its line. *)
Lemma monitor_pins_channel inputs c p : forall g,
  NoDup (pins g).*1 -> NoDup (pins g).*2 -> (c, p) ∈ pins g ->
  fired_count c (_monitor_pins inputs g).2
    = falling_edges (default 1 (pin_states g !! p))
        (samples_of c (_monitor_pins inputs g).2)
  /\ default 1 (pin_states (_monitor_pins inputs g).1 !! p)
     = default (default 1 (pin_states g !! p))
         (last (samples_of c (_monitor_pins inputs g).2)).
Proof.
  induction inputs as [|input inputs IH]; intros g Hn1 Hn2 Hin; [done|].
  simpl. destruct (monitoring g); [|done].
  destruct (scan_pins_channel input (pins g) c p g Hn1 Hn2 Hin) as (H1 & H2).
  destruct (scan_pins_keeps input (pins g) g) as (Hk & _).
  destruct (scan_pins input (pins g) g) as [g1 evs1]. simpl in *.
  destruct (IH g1) as (H3 & H4); [by rewrite Hk..|].
  destruct (_monitor_pins inputs g1) as [g2 evs2]. simpl in *.
  rewrite fired_count_app, samples_of_app, falling_edges_app.
  rewrite H1, H3, H4, H2. split; [done|].
  rewrite last_app.
  by destruct (last (samples_of c evs2)).
Qed.

(** A pass in which every read returns samples the line of a registered
    channel once, with the value read on its pin. *)
Lemma scan_pins_samples input chans c p v : forall g,
  NoDup chans.*1 -> NoDup chans.*2 -> (c, p) ∈ chans ->
  c ∈ callbacks g ->
  input p = Returns v ->
  (forall c' p', (c', p') ∈ chans -> returned (input p') = true) ->
  samples_of c (scan_pins input chans g).2 = [v].
Proof.
  induction chans as [|[c' p'] chans IH]; intros g Hn1 Hn2 Hin Hreg Hv Hall;
    [by apply elem_of_nil in Hin|].
  rewrite !fmap_cons in *. simpl in Hn1, Hn2.
  apply NoDup_cons in Hn1 as [Hc' Hn1]. apply NoDup_cons in Hn2 as [Hp' Hn2].
  apply elem_of_cons in Hin as [[= <- <-]|Hin].
  - simpl. rewrite bool_decide_eq_true_2 by done. simpl. rewrite Hv.
    destruct (scan_pins_other input chans c p (set_pin_state p v g) Hc' Hp')
      as (H1 & _).
    destruct (scan_pins input chans (set_pin_state p v g)) as [g' evs].
    simpl in *.
    unfold samples_of in *. simpl. rewrite String.eqb_refl, omap_app, H1.
    by destruct ((default 1 (pin_states g !! p) =? 1) && (v =? 0)).
  - assert (Hc : c ≠ c').
    { intros ->. apply Hc'. apply list_elem_of_fmap. by exists (c', p). }
    assert (Hlater : forall c0 p0,
              (c0, p0) ∈ chans -> returned (input p0) = true).
    { intros c0 p0 H0. apply (Hall c0 p0). by apply list_elem_of_further. }
    pose proof (Hall c' p' (list_elem_of_here _ _)) as Hr.
    simpl.
    destruct (bool_decide (c' ∈ callbacks g)); simpl; [|by apply IH].
    destruct (input p') as [v'|] eqn:Hv'; [|done].
    specialize (IH (set_pin_state p' v' g) Hn1 Hn2 Hin Hreg Hv Hlater).
    destruct (scan_pins input chans (set_pin_state p' v' g)) as [g' evs].
    simpl in *.
    assert (Hne : String.eqb c c' = false) by (by apply String.eqb_neq).
    unfold samples_of in *. simpl. rewrite Hne, omap_app, IH.
    by destruct ((default 1 (pin_states g !! p') =? 1) && (v' =? 0)).
Qed.

(** The whole run, while the loop is on and every read returns: the
    values sampled on the line of a registered channel are the values
    its pin shows, one for each pass. *)
Lemma monitor_pins_samples inputs c p : forall g values,
  NoDup (pins g).*1 -> NoDup (pins g).*2 -> (c, p) ∈ pins g ->
  monitoring g = true -> c ∈ callbacks g ->
  Forall2 (fun input v => input p = Returns v) inputs values ->
  Forall (fun input : Z -> outcome Z =>
            forall c' p', (c', p') ∈ pins g -> returned (input p') = true)
         inputs ->
  samples_of c (_monitor_pins inputs g).2 = values.
Proof.
  induction inputs as [|input inputs IH];
    intros g values Hn1 Hn2 Hin Hmon Hreg Hvals Hall.
  - by apply Forall2_nil_inv_l in Hvals as ->.
  - apply Forall2_cons_inv_l in Hvals as (v & values' & Hv & Hvals & ->).
    apply Forall_cons in Hall as [Hall1 Hall].
    simpl. rewrite Hmon.
    pose proof (scan_pins_samples input (pins g) c p v g
                  Hn1 Hn2 Hin Hreg Hv Hall1) as H1.
    destruct (scan_pins_keeps input (pins g) g) as (Hk & Hcb & Hm).
    destruct (scan_pins input (pins g) g) as [g1 evs1]. simpl in *.
    specialize (IH g1 values'). rewrite Hk, Hcb, Hm in IH.
    specialize (IH Hn1 Hn2 Hin Hmon Hreg Hvals Hall).
    destruct (_monitor_pins inputs g1) as [g2 evs2]. simpl in *.
    by rewrite samples_of_app, H1, IH.
Qed.

End PollLoop.

(** C8.  Edge-only trigger.  On a channel whose pin is shared with no
    other channel, the poll loop calls the handler once for each falling
    edge in the sequence of values it samples on the line (the value read
    at set-up standing before the first sample) and at no other time: a
    line sampled low throughout fires at most once, and the samples high,
    low, high, low fire exactly twice.  While the loop is on, the channel
    has a handler and the reads return, the samples are the values the
    pin shows, one for each pass, so that the handler is called once for
    each falling edge of the line as the passes see it. *)
Theorem edge_only_trigger (g : GPIOService) (inputs : list (Z -> outcome Z))
    (c : string) (p : Z) :
  NoDup (pins g).*1 ->
  NoDup (pins g).*2 ->
  (c, p) ∈ pins g ->
  let evs := (_monitor_pins inputs g).2 in
  fired_count c evs
    = falling_edges (default 1 (pin_states g !! p)) (samples_of c evs)
  /\ (Forall (fun v => v = 0) (samples_of c evs) ->
      (fired_count c evs <= 1)%nat)
  /\ (samples_of c evs = [1; 0; 1; 0] -> fired_count c evs = 2%nat)
  /\ (monitoring g = true ->
      c ∈ callbacks g ->
      forall values : list Z,
        Forall2 (fun input v => input p = Returns v) inputs values ->
        Forall (fun input : Z -> outcome Z =>
                  forall c' p',
                    (c', p') ∈ pins g -> returned (input p') = true)
               inputs ->
        samples_of c evs = values
        /\ fired_count c evs
           = falling_edges (default 1 (pin_states g !! p)) values).
Proof.
  intros Hn1 Hn2 Hin evs.
  destruct (monitor_pins_channel inputs c p g Hn1 Hn2 Hin) as (H & _).
  fold evs in H. rewrite H. split_and!; [done| | |].
  - apply falling_edges_low.
  - intros ->. simpl. by destruct (default 1 (pin_states g !! p) =? 1).
  - intros Hmon Hreg values Hvals Hall.
    pose proof (monitor_pins_samples inputs c p g values
                  Hn1 Hn2 Hin Hmon Hreg Hvals Hall) as Hs.
    fold evs in Hs. by rewrite Hs.
Qed.

Lemma edge_only_trigger_witness :
  let g := Fixtures.running_service in
  let inputs := Fixtures.reading <$> [1; 0; 1; 0] in
  let evs := (_monitor_pins inputs g).2 in
  samples_of "camera_1" evs = [1; 0; 1; 0]
  /\ fired_count "camera_1" evs = 2%nat.
Proof.
  intros g inputs evs.
  destruct (edge_only_trigger g inputs "camera_1" 18) as (_ & _ & _ & H).
  - apply (bool_decide_unpack _). vm_compute. exact I.
  - apply (bool_decide_unpack _). vm_compute. exact I.
  - apply (bool_decide_unpack _). vm_compute. exact I.
  - destruct (H eq_refl) with (values := [1; 0; 1; 0]) as (Hs & Hf).
    + apply (bool_decide_unpack _). vm_compute. exact I.
    + repeat constructor.
    + repeat constructor; intros c' p' _; unfold Fixtures.reading;
        by destruct (p' =? 18).
    + split; [exact Hs|]. etrans; [exact Hf|]. reflexivity.
Defined.

(** A line that is low at every sample fires once, at the first sample,
    because it was high at set-up. *)
Example held_low_example :
  let evs := (_monitor_pins (Fixtures.reading <$> [0; 0; 0; 0; 0])
                Fixtures.running_service).2 in
  samples_of "camera_1" evs = [0; 0; 0; 0; 0]
  /\ fired_count "camera_1" evs = 1%nat.
Proof. vm_compute. done. Qed.

(** * Further properties of the code *)

(** ** The queue under runs of operations *)

Section QueueBound.

Lemma run_op_max_images op st :
  max_images (run_op op st).1 = max_images st.1.
Proof.
  destruct st as [self w]. destruct op as [path|name|name]; simpl.
  - pose proof (add_image_keeps path self w) as (_ & H & _).
    by destruct (add_image path self w) as [[? ?] ?].
  - pose proof (remove_image_keeps name self w) as (_ & H & _).
    by destruct (remove_image name self w) as [[? ?] ?].
  - pose proof (mark_as_uploaded_self name self w) as H.
    destruct (mark_as_uploaded name self w) as [[? ?] ?]. simpl in *.
    by rewrite H.
Qed.

Lemma run_op_length op st :
  0 <= max_images st.1 ->
  (length (images st.1) <= Z.to_nat (max_images st.1))%nat ->
  (length (images (run_op op st).1) <= Z.to_nat (max_images st.1))%nat.
Proof.
  destruct st as [self w]. simpl. intros Hcap Hlen.
  destruct op as [path|name|name]; simpl.
  - destruct (w_files w !! path) as [s|] eqn:Hs.
    + destruct (add_image_existing path self w s Hcap Hs) as (w' & -> & _).
      simpl. rewrite length_take. lia.
    + unfold add_image, add_image_try, Os.path_exists. rewrite Hs.
      rewrite bool_decide_eq_false_2 by (by intros [? ?]). simpl. done.
  - pose proof (remove_image_sublist name self w) as H.
    destruct (remove_image name self w) as [[? ?] ?]. simpl in *.
    apply sublist_length in H. lia.
  - pose proof (mark_as_uploaded_self name self w) as H.
    destruct (mark_as_uploaded name self w) as [[? ?] ?]. simpl in *.
    by rewrite H.
Qed.

End QueueBound.

(** X1.  Under a capacity that is not negative, a queue that fits the
    capacity fits it after any run of inserts, removals and marks, and the
    capacity itself never changes. *)
Theorem queue_within_capacity (ops : list queue_op)
    (st : LocalStorageManager * world) :
  0 <= max_images st.1 ->
  (length (images st.1) <= Z.to_nat (max_images st.1))%nat ->
  max_images (run_ops ops st).1 = max_images st.1
  /\ (length (images (run_ops ops st).1) <= Z.to_nat (max_images st.1))%nat.
Proof.
  revert st. induction ops as [|op ops IH]; intros st Hcap Hlen; [done|].
  simpl. pose proof (run_op_max_images op st) as Hm.
  destruct (IH (run_op op st)) as (H1 & H2).
  - by rewrite Hm.
  - rewrite Hm. by apply run_op_length.
  - rewrite H1, Hm in *. done.
Qed.

Lemma queue_within_capacity_witness :
  let st := (Fixtures.empty_manager 2, Fixtures.disk Fixtures.six_files None) in
  let ops := [Insert "images/a.jpg"; Insert "images/b.jpg"; Mark "a.jpg";
              Insert "images/c.jpg"; Remove "b.jpg"; Insert "images/d.jpg";
              Insert "images/e.jpg"] in
  max_images (run_ops ops st).1 = 2
  /\ (length (images (run_ops ops st).1) <= 2)%nat.
Proof.
  intros st ops.
  apply (queue_within_capacity ops st).
  - simpl. lia.
  - simpl. lia.
Defined.

(** ** Marking twice *)

Section Idempotence.

Lemma run_file_ops_keeps ops : forall w,
  w_files (run_file_ops ops w).2 = w_files w
  /\ w_now (run_file_ops ops w).2 = w_now w.
Proof.
  induction ops as [|op ops IH]; intros w; [done|].
  cbn [run_file_ops]. destruct (w_ledger_io w) as [[|k]|]; [done|..].
  - destruct (IH (set_ledger (file_step op (w_ledger w))
                    (Nat.pred <$> Some (S k)) w)) as (H1 & H2). done.
  - destruct (IH (set_ledger (file_step op (w_ledger w))
                    (Nat.pred <$> None) w)) as (H1 & H2). done.
Qed.

Lemma mark_as_uploaded_keeps name self w :
  w_files (mark_as_uploaded name self w).2 = w_files w
  /\ w_now (mark_as_uploaded name self w).2 = w_now w.
Proof.
  rewrite mark_as_uploaded_world. unfold _save_upload_status.
  pose proof (run_file_ops_keeps
    (save_ops (set_uploaded ({[name]} ∪ uploaded_images self) self) w) w) as H.
  by destruct (run_file_ops _ w) as [[?|?] ?].
Qed.

Lemma save_keeps_io self w :
  w_ledger_io w = None -> w_ledger_io (_save_upload_status self w).2 = None.
Proof.
  intros Hio. unfold _save_upload_status, save_ops.
  cbn [run_file_ops]. rewrite Hio.
  cbn [file_step fmap option_fmap option_map].
  set (w0 := set_ledger (Some EmptyString) None w).
  destruct (run_writes
              (Json.dump_chunks (elements (uploaded_images self)) (w_now w))
              w0 EmptyString) as (_ & _ & H3); [done..|].
  by destruct (run_file_ops _ w0) as [[[]|?] w1].
Qed.

End Idempotence.

(** X2.  Idempotence.  Marking a name a second time, at whatever later
    moment, leaves the manager as the first marking left it.  On a ledger
    file that accepts the writes, the second save rewrites the file with
    the same list of names; the document differs from the first only in
    its [last_updated] stamp, which is the time of the second save. *)
Theorem mark_as_uploaded_idempotent (name : string)
    (self : LocalStorageManager) (w : world) (later : string) :
  let r1 := mark_as_uploaded name self w in
  let r2 := mark_as_uploaded name r1.1.2 (set_now later r1.2) in
  r2.1.2 = r1.1.2
  /\ get_uploaded_count r2.1.2 = get_uploaded_count r1.1.2
  /\ (w_ledger_io w = None ->
      let names := elements (uploaded_images r1.1.2) in
      w_ledger r1.2 = Some (Json.dumps names (w_now w))
      /\ w_ledger r2.2 = Some (Json.dumps names later)).
Proof.
  intros r1 r2. subst r1 r2.
  assert (Hself : (mark_as_uploaded name (mark_as_uploaded name self w).1.2
                     (set_now later (mark_as_uploaded name self w).2)).1.2
                  = (mark_as_uploaded name self w).1.2).
  { rewrite !mark_as_uploaded_self. unfold set_uploaded. simpl. f_equal.
    rewrite (assoc_L (∪)). by rewrite union_idemp_L. }
  split; [done|]. split; [by rewrite Hself|].
  intros Hio names. subst names. split.
  - rewrite (mark_as_uploaded_world name self w), save_complete by done.
    unfold ledger_document. by rewrite mark_as_uploaded_self.
  - rewrite (mark_as_uploaded_world name (mark_as_uploaded name self w).1.2).
    rewrite save_complete.
    + unfold ledger_document. simpl.
      rewrite !mark_as_uploaded_self. simpl.
      rewrite (assoc_L (∪)). by rewrite union_idemp_L.
    + simpl. rewrite mark_as_uploaded_world. by apply save_keeps_io.
Qed.

Lemma mark_as_uploaded_idempotent_witness :
  let w := Fixtures.disk_with_a in
  let r1 := mark_as_uploaded "b.jpg" Fixtures.manager_with_a w in
  let r2 := mark_as_uploaded "b.jpg" r1.1.2
              (set_now "2024-01-01T00:00:09" r1.2) in
  r2.1.2 = r1.1.2
  /\ get_uploaded_count r2.1.2 = 2
  /\ w_ledger r2.2
     = Some (Json.dumps (elements (uploaded_images r1.1.2))
               "2024-01-01T00:00:09").
Proof.
  intros w r1 r2.
  destruct (mark_as_uploaded_idempotent "b.jpg" Fixtures.manager_with_a w
              "2024-01-01T00:00:09") as (H1 & H2 & H3).
  fold r1 in H1, H2, H3. fold r2 in H1, H2, H3.
  split; [exact H1|]. split; [rewrite H2; reflexivity|].
  apply H3. reflexivity.
Defined.

(** ** Explicit removal *)

Section Removal.



End Removal.



(** ** Eviction *)

Section Eviction.



End Eviction.



(** ** Loading the storage directory *)

Section Loading.















End Loading.





(** ** Rescanning and restarting *)



Section Restart.

Lemma init_returns json cap dir w :
  Os.path_exists w dir = false ->
  exists imgs,
    _load_images dir w = Returns imgs
    /\ __init__ json cap dir w
       = Returns (_load_upload_status json
                    {| max_images := cap; storage_dir := dir; images := imgs;
                       uploaded_images := ∅;
                       upload_status_file := join dir "upload_status.json" |}
                    w).
Proof.
  intros Hdir. unfold __init__, Os.makedirs, _load_images. rewrite Hdir.
  eexists. split; reflexivity.
Qed.

End Restart.

(** X8.  Reload consistency.  A name is marked on a ledger file that
    accepts the writes and the process restarts on the same disk.  If the
    JSON reader gives back the list that was written, the new manager holds
    the same ledger as the old one: the name is uploaded and no entry of
    that name is pending. *)
Theorem ledger_survives_restart
    (json : string -> outcome (list string)) (cap : Z) (name : string)
    (self : LocalStorageManager) (w : world) :
  w_ledger_io w = None ->
  Os.path_exists w (storage_dir self) = false ->
  let r := mark_as_uploaded name self w in
  json (ledger_document r.1.2 w) = Returns (elements (uploaded_images r.1.2)) ->
  exists sm,
    __init__ json cap (storage_dir self) r.2 = Returns sm
    /\ uploaded_images sm = uploaded_images r.1.2
    /\ is_uploaded name sm = true
    /\ forall img, img ∈ get_upload_queue sm -> filename img ≠ name.
Proof.
  intros Hio Hdir r Hjson.
  destruct (mark_as_uploaded_keeps name self w) as (Hfiles & _). fold r in Hfiles.
  assert (Hdir' : Os.path_exists r.2 (storage_dir self) = false).
  { unfold Os.path_exists in *. by rewrite Hfiles. }
  destruct (init_returns json cap (storage_dir self) r.2 Hdir')
    as (imgs & _ & Hinit).
  assert (Hled : w_ledger r.2 = Some (ledger_document r.1.2 w)).
  { subst r. rewrite mark_as_uploaded_world at 1.
    rewrite save_complete by done. by rewrite mark_as_uploaded_self. }
  eexists. split; [exact Hinit|].
  unfold _load_upload_status. rewrite Hled, Hjson.
  assert (Hname : name ∈ uploaded_images r.1.2).
  { subst r. rewrite mark_as_uploaded_self. simpl. set_solver. }
  simpl. rewrite list_to_set_elements_L. repeat split.
  - unfold is_uploaded. simpl. by apply bool_decide_eq_true.
  - intros img Himg. unfold get_upload_queue in Himg.
    apply list_elem_of_filter in Himg as [Hp _].
    unfold is_uploaded in Hp. simpl in Hp. apply bool_decide_eq_false in Hp.
    congruence.
Qed.

Lemma ledger_survives_restart_witness :
  let self := (run_ops [Insert "images/a.jpg"; Insert "images/b.jpg"]
                 (Fixtures.empty_manager 50,
                  Fixtures.disk Fixtures.six_files None)).1 in
  let w := Fixtures.disk Fixtures.six_files None in
  let r := mark_as_uploaded "b.jpg" self w in
  let json := MoreFixtures.one_document_json
                (ledger_document r.1.2 w) (elements (uploaded_images r.1.2)) in
  exists sm,
    __init__ json 50 "images" r.2 = Returns sm
    /\ is_uploaded "b.jpg" sm = true
    /\ forall img, img ∈ get_upload_queue sm -> filename img ≠ "b.jpg".
Proof.
  intros self w r json.
  destruct (ledger_survives_restart json 50 "b.jpg" self w)
    as (sm & H1 & _ & H3 & H4).
  - reflexivity.
  - reflexivity.
  - unfold json, MoreFixtures.one_document_json.
    by rewrite String.eqb_refl.
  - exists sm. repeat split; assumption.
Defined.

(** X9.  A ledger file that is absent, or that the JSON reader rejects,
    is no obstacle to construction: the manager starts with an empty
    ledger, so every image found in the directory is pending. *)
Theorem unreadable_ledger_is_empty
    (json : string -> outcome (list string)) (cap : Z) (dir : string)
    (w : world) (sm : LocalStorageManager) :
  match w_ledger w with
  | Some content => returned (json content) = false
  | None => True
  end ->
  __init__ json cap dir w = Returns sm ->
  uploaded_images sm = ∅
  /\ get_uploaded_count sm = 0
  /\ get_upload_queue sm = images sm.
Proof.
  intros Hbad Hinit. unfold __init__ in Hinit.
  destruct (Os.makedirs w dir); [|done].
  destruct (_load_images dir w) as [imgs|]; [|done].
  injection Hinit as <-.
  assert (Hempty : uploaded_images
            (_load_upload_status json
               {| max_images := cap; storage_dir := dir; images := imgs;
                  uploaded_images := ∅;
                  upload_status_file := join dir "upload_status.json" |} w) = ∅).
  { unfold _load_upload_status.
    destruct (w_ledger w) as [content|]; [|done].
    by destruct (json content). }
  split; [done|]. split.
  - unfold get_uploaded_count. rewrite Hempty. done.
  - unfold get_upload_queue, is_uploaded. rewrite Hempty.
    assert (Himgs : images
              (_load_upload_status json
                 {| max_images := cap; storage_dir := dir; images := imgs;
                    uploaded_images := ∅;
                    upload_status_file := join dir "upload_status.json" |} w)
              = imgs).
    { unfold _load_upload_status.
      destruct (w_ledger w) as [content|]; [|done].
      by destruct (json content). }
    rewrite Himgs. clear.
    induction imgs as [|x l IH]; [done|].
    rewrite filter_cons_True; [by rewrite IH|].
    apply bool_decide_eq_false. set_solver.
Qed.

Lemma unreadable_ledger_is_empty_witness :
  let w := Fixtures.disk Fixtures.six_files (Some "{ uploaded_im") in
  exists sm,
    __init__ Fixtures.no_json 50 "images" w = Returns sm
    /\ uploaded_images sm = ∅
    /\ length (get_upload_queue sm) = 6%nat.
Proof.
  intros w.
  destruct (__init__ Fixtures.no_json 50 "images" w) as [sm|e] eqn:E;
    [|vm_compute in E; discriminate E].
  exists sm.
  destruct (unreadable_ledger_is_empty Fixtures.no_json 50 "images" w sm)
    as (H1 & _ & H3); [reflexivity|exact E|].
  repeat split; [exact H1|]. rewrite H3.
  vm_compute in E. injection E as <-. reflexivity.
Defined.

(** ** The upload worker over many cycles *)

Section Cycles.
Context {U : Type}.
Variable upload : string -> U -> upload_result * U.

Lemma call_mark_world name (a : app U) sm :
  storage_manager a = Some sm ->
  call_mark name a =
    (Returns tt,
     {| storage_manager :=
          Some (set_uploaded ({[name]} ∪ uploaded_images sm) sm);
        uploader := uploader a; status := status a;
        app_world := (mark_as_uploaded name sm (app_world a)).2;
        upload_log := upload_log a |}).
Proof.
  intros Hsm. unfold call_mark. rewrite Hsm.
  pose proof (mark_as_uploaded_returns name sm (app_world a)) as H1.
  pose proof (mark_as_uploaded_self name sm (app_world a)) as H2.
  destruct (mark_as_uploaded name sm (app_world a)) as [[o sm'] w'].
  simpl in *. by subst.
Qed.

(** What the loop of the worker keeps, whatever the uploader does. *)
Lemma upload_batch_keeps batch : forall (a : app U) sm,
  storage_manager a = Some sm ->
  exists sm',
    storage_manager (upload_batch upload batch a) = Some sm'
    /\ images sm' = images sm
    /\ max_images sm' = max_images sm
    /\ uploaded_images sm ⊆ uploaded_images sm'
    /\ w_files (app_world (upload_batch upload batch a))
       = w_files (app_world a)
    /\ (length (upload_log (upload_batch upload batch a))
        <= length (upload_log a) + length batch)%nat.
Proof.
  induction batch as [|img batch IH]; intros a sm Hsm.
  - exists sm. simpl. split_and!; [done..|lia].
  - simpl. unfold call_upload.
    destruct (uploader a) as [u|] eqn:Hu.
    + destruct (upload (filepath img) u) as [r u'] eqn:Hup.
      set (a1 := {| storage_manager := storage_manager a; uploader := Some u';
                    status := status a; app_world := app_world a;
                    upload_log := upload_log a ++ [filepath img] |}).
      assert (Hstop : exists sm',
                storage_manager (with_status count_failure a1) = Some sm'
                /\ images sm' = images sm
                /\ max_images sm' = max_images sm
                /\ uploaded_images sm ⊆ uploaded_images sm'
                /\ w_files (app_world (with_status count_failure a1))
                   = w_files (app_world a)
                /\ (length (upload_log (with_status count_failure a1))
                    <= length (upload_log a) + S (length batch))%nat).
      { exists sm. simpl. rewrite length_app. simpl.
        split_and!; [done..|lia]. }
      destruct r as [location|]; [|done].
      destruct (truthy location); [|done].
      rewrite (call_mark_world (filename img) (with_status count_success a1) sm)
        by done.
      match goal with
      | |- context [upload_batch upload batch ?x] => set (a2 := x)
      end.
      destruct (IH a2 (set_uploaded ({[filename img]} ∪ uploaded_images sm) sm))
        as (sm' & Hsm' & Himg & Hmax & Hsub & Hfiles & Hlen); [done|].
      exists sm'. rewrite Hsm', Hfiles.
      destruct (mark_as_uploaded_keeps (filename img) sm (app_world a)) as (Hk & _).
      simpl in *. rewrite length_app in Hlen. simpl in Hlen.
      split_and!; [done..|set_solver|done|lia].
    + exists sm. simpl. split_and!; [done..|lia].
Qed.

Lemma worker_cycle_keeps probe (a : app U) sm :
  storage_manager a = Some sm ->
  exists sm',
    storage_manager (upload_worker_cycle upload probe a) = Some sm'
    /\ images sm' = images sm
    /\ max_images sm' = max_images sm
    /\ uploaded_images sm ⊆ uploaded_images sm'
    /\ w_files (app_world (upload_worker_cycle upload probe a))
       = w_files (app_world a)
    /\ (length (upload_log (upload_worker_cycle upload probe a))
        <= length (upload_log a) + 5)%nat.
Proof.
  intros Hsm. unfold upload_worker_cycle. destruct probe.
  - set (a1 := with_status _ a).
    assert (Hsm1 : storage_manager a1 = Some sm) by done.
    rewrite Hsm1.
    destruct (upload_batch_keeps (take 5 (get_upload_queue sm)) a1 sm Hsm1)
      as (sm' & Hsm' & Himg & Hmax & Hsub & Hfiles & Hlen).
    assert (Hb : match get_upload_queue sm with
                 | [] => a1
                 | _ :: _ => upload_batch upload (take 5 (get_upload_queue sm)) a1
                 end = upload_batch upload (take 5 (get_upload_queue sm)) a1).
    { by destruct (get_upload_queue sm). }
    cbv zeta. rewrite Hb, Hsm'. exists sm'. simpl.
    rewrite length_take in Hlen.
    change (upload_log a1) with (upload_log a) in Hlen.
    split_and!; [done..|lia].
  - exists sm. simpl. split_and!; [done..|lia].
Qed.

End Cycles.

(** X10.  The sync engine never deletes.  Whatever the uploader and the
    network do, any number of worker cycles leave the queue entries, the
    capacity and the files on disk as they were; the ledger only grows;
    and the uploader is called at most five times per cycle. *)
Theorem sync_never_deletes {U : Type}
    (upload : string -> U -> upload_result * U) (probes : list bool)
    (a : app U) (sm : LocalStorageManager) :
  storage_manager a = Some sm ->
  exists sm',
    storage_manager (run_cycles upload probes a) = Some sm'
    /\ images sm' = images sm
    /\ max_images sm' = max_images sm
    /\ uploaded_images sm ⊆ uploaded_images sm'
    /\ w_files (app_world (run_cycles upload probes a))
       = w_files (app_world a)
    /\ (length (upload_log (run_cycles upload probes a))
        <= length (upload_log a) + 5 * length probes)%nat.
Proof.
  revert a sm. induction probes as [|probe probes IH]; intros a sm Hsm.
  - exists sm. simpl. split_and!; [done..|lia].
  - destruct (worker_cycle_keeps upload probe a sm Hsm)
      as (sm1 & Hsm1 & Himg1 & Hmax1 & Hsub1 & Hfiles1 & Hlen1).
    destruct (IH _ _ Hsm1) as (sm' & Hsm' & Himg & Hmax & Hsub & Hfiles & Hlen).
    exists sm'. unfold run_cycles in *. simpl.
    split_and!; [congruence..|set_solver|congruence|simpl in *; lia].
Qed.

Lemma sync_never_deletes_witness :
  let st := run_ops [Insert "images/a.jpg"; Insert "images/b.jpg";
                     Insert "images/c.jpg"]
              (Fixtures.empty_manager 50,
               Fixtures.disk Fixtures.six_files None) in
  let a := Fixtures.app_of st.1 st.2 [true; false; true] in
  let a' := run_cycles Fixtures.scripted [true; false; true] a in
  exists sm',
    storage_manager a' = Some sm'
    /\ images sm' = images st.1
    /\ w_files (app_world a') = w_files st.2
    /\ (length (upload_log a') <= 15)%nat.
Proof.
  intros st a a'.
  destruct (sync_never_deletes Fixtures.scripted [true; false; true] a st.1)
    as (sm' & H1 & H2 & _ & _ & H5 & H6); [reflexivity|].
  exists sm'. split_and!; assumption.
Defined.

(** ** Draining the queue *)

(** Marking a set of names takes the entries of those names, and no
    other, out of the upload queue. *)
Lemma get_upload_queue_marked_set (names : gset string) sm :
  get_upload_queue (set_uploaded (names ∪ uploaded_images sm) sm)
  = filter (fun img => filename img ∉ names) (get_upload_queue sm).
Proof.
  unfold get_upload_queue. rewrite list_filter_filter. simpl.
  apply list_filter_iff. intros img. unfold is_uploaded. simpl.
  rewrite !bool_decide_eq_false. set_solver.
Qed.

Lemma filter_all {A} (P : A -> Prop) `{!forall x, Decision (P x)} (l : list A) :
  Forall P l -> filter P l = l.
Proof.
  induction 1 as [|x l Hx _ IH]; [done|].
  by rewrite filter_cons_True, IH.
Qed.

(** In a list of distinct names, dropping the entries named like one of
    the first [n] drops the first [n]. *)
Lemma filter_first_names (l : list image_info) : forall n (extra : gset string),
  NoDup (filename <$> l) ->
  (forall y, y ∈ l -> filename y ∉ extra) ->
  filter (fun y => filename y ∉ extra ∪ list_to_set (filename <$> take n l)) l
  = drop n l.
Proof.
  induction l as [|x l IH]; intros n extra Hnd Hextra; [by destruct n|].
  rewrite fmap_cons in Hnd. apply NoDup_cons in Hnd as [Hx Hnd].
  destruct n as [|n].
  - simpl. apply filter_all. apply Forall_forall. intros y Hy.
    specialize (Hextra y Hy). set_solver.
  - simpl. rewrite filter_cons_False by set_solver.
    rewrite <- (IH n (extra ∪ {[filename x]}) Hnd).
    + apply list_filter_iff. intros y. set_solver.
    + intros y Hy. assert (filename y ∉ extra) by (apply Hextra; by right).
      assert (filename y ≠ filename x).
      { intros E. apply Hx. rewrite <- E. apply list_elem_of_fmap. eauto. }
      set_solver.
Qed.

Lemma take_plus_drop {A} (l : list A) (n m : nat) :
  take (n + m) l = take n l ++ take m (drop n l).
Proof.
  revert l. induction n as [|n IH]; intros [|x l]; simpl; try done.
  - by rewrite take_nil.
  - by rewrite IH.
Qed.

Section Drain.
Context {U : Type}.
Variable upload : string -> U -> upload_result * U.

Hypothesis healthy :
  forall path u, succeeded (upload path u).1 = true.

(** With an uploader that gets every file through, the loop of the
    worker marks every entry of its batch. *)
Lemma upload_batch_all batch : forall (a : app U) sm u,
  storage_manager a = Some sm ->
  uploader a = Some u ->
  exists u',
    storage_manager (upload_batch upload batch a)
      = Some (set_uploaded
                (list_to_set (filename <$> batch) ∪ uploaded_images sm) sm)
    /\ uploader (upload_batch upload batch a) = Some u'
    /\ upload_log (upload_batch upload batch a)
       = upload_log a ++ (filepath <$> batch).
Proof.
  induction batch as [|img batch IH]; intros a sm u Hsm Hu.
  - exists u. simpl. rewrite app_nil_r. split_and!; [|done..].
    rewrite Hsm. f_equal. destruct sm. unfold set_uploaded. simpl. f_equal.
    set_solver.
  - destruct (upload (filepath img) u) as [r u1] eqn:Hup.
    pose proof (healthy (filepath img) u) as Hr. rewrite Hup in Hr. simpl in Hr.
    destruct (upload_batch_success upload img batch a sm u r u1 Hsm Hu Hup Hr)
      as (w' & ->).
    match goal with
    | |- context [upload_batch upload batch ?x] => set (a2 := x)
    end.
    destruct (IH a2 (set_uploaded ({[filename img]} ∪ uploaded_images sm) sm) u1)
      as (u' & H1 & H2 & H3); [done..|].
    exists u'. rewrite H1, H2, H3. simpl. rewrite <- app_assoc.
    split_and!; [|done..].
    f_equal. unfold set_uploaded. simpl. f_equal. set_solver.
Qed.

Lemma healthy_cycle (a : app U) sm u :
  storage_manager a = Some sm ->
  uploader a = Some u ->
  NoDup (filename <$> get_upload_queue sm) ->
  exists sm' u',
    storage_manager (upload_worker_cycle upload true a) = Some sm'
    /\ uploader (upload_worker_cycle upload true a) = Some u'
    /\ images sm' = images sm
    /\ get_upload_queue sm' = drop 5 (get_upload_queue sm)
    /\ upload_log (upload_worker_cycle upload true a)
       = upload_log a ++ (filepath <$> take 5 (get_upload_queue sm)).
Proof.
  intros Hsm Hu Hnd. unfold upload_worker_cycle.
  set (a1 := with_status _ a).
  assert (Hsm1 : storage_manager a1 = Some sm) by done.
  assert (Hu1 : uploader a1 = Some u) by done.
  rewrite Hsm1.
  assert (Hb : match get_upload_queue sm with
               | [] => a1
               | _ :: _ => upload_batch upload (take 5 (get_upload_queue sm)) a1
               end = upload_batch upload (take 5 (get_upload_queue sm)) a1).
  { by destruct (get_upload_queue sm). }
  cbv zeta. rewrite Hb.
  destruct (upload_batch_all (take 5 (get_upload_queue sm)) a1 sm u Hsm1 Hu1)
    as (u' & H1 & H2 & H3).
  rewrite H1. eexists _, u'. simpl. rewrite H2, H3.
  split_and!; [done..| |done].
  rewrite get_upload_queue_marked_set.
  rewrite <- (filter_first_names (get_upload_queue sm) 5 ∅ Hnd) by set_solver.
  apply list_filter_iff. intros img. set_solver.
Qed.

End Drain.

(** X11.  Draining.  With an uploader that gets every file through and
    the network up, each worker cycle takes the next five entries off the
    head of the upload queue: after [k] cycles the pending entries are the
    queue without its first [5 k] entries (file names being distinct), so
    [n] pending entries are drained within [n / 5] cycles, rounded up. *)
Theorem healthy_uploader_drains {U : Type}
    (upload : string -> U -> upload_result * U) (k : nat) (a : app U)
    (sm : LocalStorageManager) (u : U) :
  (forall path u, succeeded (upload path u).1 = true) ->
  storage_manager a = Some sm ->
  uploader a = Some u ->
  NoDup (filename <$> get_upload_queue sm) ->
  exists sm',
    storage_manager (run_cycles upload (replicate k true) a) = Some sm'
    /\ images sm' = images sm
    /\ get_upload_queue sm' = drop (5 * k) (get_upload_queue sm)
    /\ upload_log (run_cycles upload (replicate k true) a)
       = upload_log a ++ (filepath <$> take (5 * k) (get_upload_queue sm)).
Proof.
  intros Hok. revert a sm u. induction k as [|k IH]; intros a sm u Hsm Hu Hnd.
  - exists sm. simpl. by rewrite app_nil_r.
  - destruct (healthy_cycle upload Hok a sm u Hsm Hu Hnd)
      as (sm1 & u1 & Hsm1 & Hu1 & Himg1 & Hq1 & Hlog1).
    destruct (IH _ sm1 u1 Hsm1 Hu1) as (sm' & Hsm' & Himg & Hq & Hlog).
    { rewrite Hq1. eapply sublist_NoDup; [exact Hnd|].
      apply fmap_sublist, sublist_drop. }
    exists sm'. unfold run_cycles in *.
    change (replicate (S k) true) with (true :: replicate k true).
    cbn [foldl]. rewrite Hsm', Hlog, Hlog1, Hq, Hq1, drop_drop.
    replace (5 * S k)%nat with (5 + 5 * k)%nat by lia.
    split_and!; [done|congruence|done|].
    rewrite <- app_assoc. f_equal. rewrite <- fmap_app. f_equal.
    by rewrite take_plus_drop.
Qed.

Lemma healthy_uploader_drains_witness :
  let st := run_ops [Insert "images/a.jpg"; Insert "images/b.jpg";
                     Insert "images/c.jpg"; Insert "images/d.jpg";
                     Insert "images/e.jpg"; Insert "images/f.jpg"]
              (Fixtures.empty_manager 50,
               Fixtures.disk Fixtures.six_files None) in
  let a := MoreFixtures.unit_app st.1 st.2 in
  exists sm1 sm2,
    storage_manager (run_cycles MoreFixtures.healthy [true] a) = Some sm1
    /\ filename <$> get_upload_queue sm1 = ["a.jpg"]
    /\ storage_manager (run_cycles MoreFixtures.healthy [true; true] a)
       = Some sm2
    /\ get_upload_queue sm2 = [].
Proof.
  intros st a.
  destruct (healthy_uploader_drains MoreFixtures.healthy 1 a st.1 tt)
    as (sm1 & H1 & _ & H2 & _); [done|reflexivity|reflexivity| |].
  { apply (bool_decide_unpack _). vm_compute. exact I. }
  destruct (healthy_uploader_drains MoreFixtures.healthy 2 a st.1 tt)
    as (sm2 & H3 & _ & H4 & _); [done|reflexivity|reflexivity| |].
  { apply (bool_decide_unpack _). vm_compute. exact I. }
  exists sm1, sm2. split_and!; [exact H1| |exact H3|].
  - rewrite H2. reflexivity.
  - rewrite H4. reflexivity.
Defined.

(** ** A file that never gets through *)

Section Blocked.
Context {U : Type}.
Variable upload : string -> U -> upload_result * U.

Lemma blocked_cycle (a : app U) sm u e q :
  storage_manager a = Some sm ->
  uploader a = Some u ->
  get_upload_queue sm = e :: q ->
  succeeded (upload (filepath e) u).1 = false ->
  upload_worker_cycle upload true a
  = {| storage_manager := Some sm;
       uploader := Some (upload (filepath e) u).2;
       status :=
         set_pending (Z.of_nat (length (e :: q)))
           (count_failure (set_online true (w_now (app_world a)) (status a)));
       app_world := app_world a;
       upload_log := upload_log a ++ [filepath e] |}.
Proof.
  intros Hsm Hu Hq Hfail. unfold upload_worker_cycle.
  set (a1 := with_status _ a).
  assert (Hsm1 : storage_manager a1 = Some sm) by done.
  rewrite Hsm1, Hq. cbv zeta. cbn [take].
  destruct (upload (filepath e) u) as [r u'] eqn:Hup. simpl in Hfail.
  rewrite (upload_batch_failure upload e (take 4 q) a1 u r u') by done.
  cbn. rewrite Hsm. unfold with_status. cbn.
  change (filter _ (images sm)) with (get_upload_queue sm). by rewrite Hq.
Qed.

End Blocked.

(** X12.  Head-of-line blocking.  When the upload of the entry at the
    head of the upload queue fails every time, no worker cycle ever
    uploads anything: the manager and the disk stay as they are, every
    cycle that finds the network up calls the uploader on that one file
    and counts one failure, and the entries behind it are never tried. *)
Theorem failing_head_blocks_queue {U : Type}
    (upload : string -> U -> upload_result * U) (probes : list bool)
    (a : app U) (sm : LocalStorageManager) (u : U)
    (e : image_info) (q : list image_info) :
  storage_manager a = Some sm ->
  uploader a = Some u ->
  get_upload_queue sm = e :: q ->
  (forall u, succeeded (upload (filepath e) u).1 = false) ->
  let a' := run_cycles upload probes a in
  let tries := length (filter (fun b => b = true) probes) in
  storage_manager a' = Some sm
  /\ app_world a' = app_world a
  /\ upload_log a' = upload_log a ++ replicate tries (filepath e)
  /\ failed_uploads (status a') = failed_uploads (status a) + Z.of_nat tries
  /\ successful_uploads (status a') = successful_uploads (status a).
Proof.
  intros Hsm Hu Hq Hfail. revert a u Hsm Hu.
  induction probes as [|probe probes IH]; intros a u Hsm Hu a' tries.
  - subst a' tries. simpl. rewrite app_nil_r. split_and!; [done..|lia|done].
  - subst a' tries. unfold run_cycles. cbn [foldl]. destruct probe.
    + rewrite (blocked_cycle upload a sm u e q Hsm Hu Hq (Hfail u)).
      match goal with
      | |- context [foldl _ ?x probes] => set (a1 := x)
      end.
      destruct (IH a1 (upload (filepath e) u).2) as (H1 & H2 & H3 & H4 & H5);
        [done..|].
      unfold run_cycles in *. rewrite H1, H2, H3, H4, H5.
      rewrite filter_cons_True by done. cbn [length replicate].
      subst a1. cbn. rewrite <- app_assoc.
      split_and!; [done..|lia|done].
    + assert (Hoff : upload_worker_cycle upload false a
                     = with_status (set_online false (w_now (app_world a))) a)
        by done.
      rewrite Hoff.
      destruct (IH (with_status (set_online false (w_now (app_world a))) a) u)
        as (H1 & H2 & H3 & H4 & H5); [done..|].
      unfold run_cycles in *. rewrite H1, H2, H3, H4, H5.
      rewrite filter_cons_False by done. done.
Qed.

Lemma failing_head_blocks_queue_witness :
  let st := run_ops [Insert "images/a.jpg"; Insert "images/b.jpg";
                     Insert "images/c.jpg"]
              (Fixtures.empty_manager 50,
               Fixtures.disk Fixtures.six_files None) in
  let a := MoreFixtures.unit_app st.1 st.2 in
  let a' := run_cycles MoreFixtures.unreachable [true; false; true; true] a in
  storage_manager a' = Some st.1
  /\ upload_log a' = ["images/c.jpg"; "images/c.jpg"; "images/c.jpg"]
  /\ failed_uploads (status a') = 3
  /\ successful_uploads (status a') = 0.
Proof.
  intros st a a'.
  destruct (failing_head_blocks_queue MoreFixtures.unreachable
              [true; false; true; true] a st.1 tt
              (make_info "c.jpg" "images/c.jpg" (Fixtures.file_at 3))
              [make_info "b.jpg" "images/b.jpg" (Fixtures.file_at 2);
               make_info "a.jpg" "images/a.jpg" (Fixtures.file_at 1)])
    as (H1 & _ & H3 & H4 & H5); [reflexivity..|done|].
  fold a' in H1, H3, H4, H5.
  split_and!; [exact H1|rewrite H3; reflexivity|rewrite H4; reflexivity|
               rewrite H5; reflexivity].
Defined.

(** ** A capture that comes in *)

Section Capture.
Context {U : Type}.
Variable upload : string -> U -> upload_result * U.

Lemma string_drop_local path : string_drop 6 ("local:" +:+ path) = path.
Proof. reflexivity. Qed.

Lemma local_prefix path :
  negb (String.eqb ("local:" +:+ path) EmptyString)
  && startswith ("local:" +:+ path) "local:" = true.
Proof.
  unfold startswith.
  change ("local:" +:+ path)
    with (String "l" (String "o" (String "c" (String "a" (String "l"
           (String ":" path)))))).
  cbn. by destruct path.
Qed.

End Capture.

(** X13.  A capture handed over by a GPIO callback as [local:<path>],
    whose file exists, is put at the head of the queue (capacity at least
    1) and the uploader is called on it once, at once.  When the upload
    returns a location the base name is marked, so the new entry is not
    pending; when it fails the ledger is untouched and the entry waits for
    the worker. *)
Theorem capture_stored_then_uploaded {U : Type}
    (upload : string -> U -> upload_result * U) (a : app U)
    (sm : LocalStorageManager) (u : U) (path : string) (s : stat_result) :
  storage_manager a = Some sm ->
  uploader a = Some u ->
  1 <= max_images sm ->
  w_files (app_world a) !! path = Some s ->
  let a' := gpio_camera_callback upload
              (Returns (Some ("local:" +:+ path))) a in
  exists sm',
    storage_manager a' = Some sm'
    /\ head (images sm') = Some (make_info (basename path) path s)
    /\ upload_log a' = upload_log a ++ [path]
    /\ uploaded_images sm'
       = (if succeeded (upload path u).1
          then {[basename path]} ∪ uploaded_images sm
          else uploaded_images sm)
    /\ (succeeded (upload path u).1 = true ->
        forall img, img ∈ get_upload_queue sm' ->
                    filename img ≠ basename path).
Proof.
  intros Hsm Hu Hcap Hs a'. subst a'. unfold gpio_camera_callback.
  rewrite local_prefix, string_drop_local, Hsm.
  destruct (add_image_existing path sm (app_world a) s) as (w1 & -> & _);
    [lia|done|].
  set (sm1 := set_images _ sm).
  assert (Hhead : head (images sm1) = Some (make_info (basename path) path s)).
  { subst sm1. simpl.
    destruct (Z.to_nat (max_images sm)) as [|n] eqn:E; [lia|done]. }
  unfold call_upload. cbn [uploader with_storage]. rewrite Hu.
  destruct (upload path u) as [r u'] eqn:Hup. cbn [fst].
  assert (Hfail : succeeded r = false ->
    exists sm',
      storage_manager
        {| storage_manager := Some sm1; uploader := Some u';
           status := status a; app_world := w1;
           upload_log := upload_log a ++ [path] |} = Some sm'
      /\ head (images sm') = Some (make_info (basename path) path s)
      /\ upload_log a ++ [path] = upload_log a ++ [path]
      /\ uploaded_images sm'
         = (if succeeded r then {[basename path]} ∪ uploaded_images sm
            else uploaded_images sm)
      /\ (succeeded r = true ->
          forall img, img ∈ get_upload_queue sm' ->
                      filename img ≠ basename path)).
  { intros Hr. exists sm1. rewrite Hr. split_and!; try done. }
  destruct r as [location|]; [|by apply Hfail].
  destruct (truthy location) eqn:Ht; [|by apply Hfail].
  rewrite (call_mark_world (basename path) _ sm1) by done.
  eexists. cbn. rewrite Ht. split_and!; [done..|].
  intros _ img Himg.
  unfold get_upload_queue in Himg. apply list_elem_of_filter in Himg as [Hp _].
  unfold is_uploaded in Hp. simpl in Hp. apply bool_decide_eq_false in Hp.
  set_solver.
Qed.

Lemma capture_stored_then_uploaded_witness :
  let a := Fixtures.app_of (Fixtures.empty_manager 50)
             (Fixtures.disk Fixtures.six_files None) [true] in
  let a' := gpio_camera_callback Fixtures.scripted
              (Returns (Some "local:images/a.jpg")) a in
  exists sm',
    storage_manager a' = Some sm'
    /\ filenames sm' = ["a.jpg"]
    /\ upload_log a' = ["images/a.jpg"]
    /\ get_upload_queue sm' = [].
Proof.
  intros a a'.
  destruct (capture_stored_then_uploaded Fixtures.scripted a
              (Fixtures.empty_manager 50) [true] "images/a.jpg"
              (Fixtures.file_at 1))
    as (sm' & H1 & _ & H3 & _); [reflexivity|reflexivity|simpl; lia|reflexivity|].
  change ("local:" +:+ "images/a.jpg") with "local:images/a.jpg" in H1, H3.
  fold a' in H1, H3.
  exists sm'. split; [exact H1|].
  assert (Some sm' = storage_manager a') as Heq by done.
  vm_compute in Heq. injection Heq as ->.
  split; [reflexivity|]. split; [exact H3|reflexivity].
Defined.

(** ** The GPIO service: availability, set-up, channels without handler *)

Section Gpio.

Lemma run_calls_unavailable calls : forall g,
  gpio_available g = false -> monitoring g = false ->
  gpio_available (run_calls calls g) = false
  /\ monitoring (run_calls calls g) = false.
Proof.
  induction calls as [|c calls IH]; intros g Ha Hm; [done|].
  unfold run_calls. cbn [foldl]. apply IH.
  - destruct c; simpl; unfold register_callback, start_monitoring,
      stop_monitoring; rewrite ?Ha, ?Hm; simpl; try done.
    by destruct (bool_decide _).
  - destruct c; simpl; unfold register_callback, start_monitoring,
      stop_monitoring; rewrite ?Ha, ?Hm; simpl; try done.
    by destruct (bool_decide _).
Qed.

Lemma setup_pins_ok input chans : forall g,
  (forall c p, (c, p) ∈ chans -> returned (input p) = true) ->
  gpio_available (setup_pins input chans g) = gpio_available g
  /\ forall p v,
       input p = Returns v ->
       pin_states (setup_pins input chans g) !! p
       = if bool_decide (p ∈ chans.*2) then Some v else pin_states g !! p.
Proof.
  induction chans as [|[c' p'] chans IH]; intros g Hok.
  - split; [done|]. intros p v _.
    case_bool_decide as H; [by apply elem_of_nil in H|done].
  - simpl. specialize (Hok c' p' ltac:(left)) as Hhead.
    destruct (input p') as [v'|] eqn:E; [|done].
    destruct (IH (set_pin_state p' v' g)) as (Ha & Hst).
    { intros c p Hin. apply (Hok c p). by right. }
    split; [done|]. intros p v Hp. rewrite (Hst p v Hp).
    destruct (decide (p ∈ chans.*2)) as [Hin|Hin].
    + rewrite !bool_decide_eq_true_2; [done|set_solver|done].
    + rewrite (bool_decide_eq_false_2 _ Hin). simpl.
      destruct (decide (p = p')) as [->|Hne].
      * rewrite lookup_insert_eq, bool_decide_eq_true_2 by set_solver.
        congruence.
      * rewrite lookup_insert_ne by done.
        rewrite bool_decide_eq_false_2; [done|set_solver].
Qed.

Lemma setup_pins_failed input chans : forall g,
  (exists c p, (c, p) ∈ chans /\ returned (input p) = false) ->
  gpio_available (setup_pins input chans g) = false.
Proof.
  induction chans as [|[c' p'] chans IH]; intros g (c & p & Hin & Hbad).
  - by apply elem_of_nil in Hin.
  - simpl. destruct (input p') as [v'|] eqn:E; [|done].
    apply IH. apply elem_of_cons in Hin as [[= -> ->]|Hin].
    + by rewrite E in Hbad.
    + eauto.
Qed.

(** A pass leaves alone a channel that has no handler, provided no
    other channel sits on its pin. *)
Lemma scan_pins_unregistered input chans c p : forall g,
  c ∉ callbacks g ->
  (forall c' p', (c', p') ∈ chans -> c' ≠ c -> p' ≠ p) ->
  samples_of c (scan_pins input chans g).2 = []
  /\ fired_count c (scan_pins input chans g).2 = O
  /\ pin_states (scan_pins input chans g).1 !! p = pin_states g !! p.
Proof.
  induction chans as [|[c' p'] chans IH]; intros g Hc Hpins; [done|].
  simpl.
  assert (Hrest : forall c'' p'', (c'', p'') ∈ chans -> c'' ≠ c -> p'' ≠ p).
  { intros c'' p'' Hin. apply Hpins. by right. }
  destruct (bool_decide (c' ∈ callbacks g)) eqn:Hreg; simpl; [|by apply IH].
  apply bool_decide_eq_true in Hreg.
  assert (Hne : c' ≠ c) by (intros ->; done).
  assert (Hpne : p' ≠ p) by (apply (Hpins c' p'); [by left|done]).
  destruct (input p') as [v|]; [|done].
  destruct (IH (set_pin_state p' v g) Hc Hrest) as (H1 & H2 & H3).
  destruct (scan_pins input chans (set_pin_state p' v g)) as [g' evs].
  simpl in *.
  assert (Heqb : String.eqb c c' = false) by (apply String.eqb_neq; congruence).
  split_and!.
  - unfold samples_of in *. simpl. rewrite Heqb, omap_app, H1.
    by destruct ((default 1 (pin_states g !! p') =? 1) && (v =? 0)).
  - unfold fired_count in *. rewrite filter_cons_False by done.
    rewrite filter_app, length_app, H2.
    destruct ((default 1 (pin_states g !! p') =? 1) && (v =? 0)); [|done].
    rewrite filter_cons_False; [done|]. simpl. by rewrite Heqb.
  - rewrite H3. by rewrite lookup_insert_ne.
Qed.

End Gpio.

(** X14.  Unavailable mode.  On a service that is unavailable and not
    monitoring, registering handlers and starting the monitor change
    neither: the service stays unavailable, and the poll loop, whatever
    the lines do, samples nothing and calls no handler. *)
Theorem unavailable_service_never_fires (g : GPIOService)
    (calls : list gpio_call) (inputs : list (Z -> outcome Z)) :
  gpio_available g = false ->
  monitoring g = false ->
  is_gpio_available (run_calls calls g) = false
  /\ _monitor_pins inputs (run_calls calls g) = (run_calls calls g, []).
Proof.
  intros Ha Hm.
  destruct (run_calls_unavailable calls g Ha Hm) as (Ha' & Hm').
  split; [done|]. destruct inputs as [|input inputs]; [done|].
  simpl. by rewrite Hm'.
Qed.

Lemma unavailable_service_never_fires_witness :
  let g := _setup_gpio (fun _ => Raises OSError) (new_service true 18 19) in
  let calls := [Register "camera_1"; Register "camera_2"; Start] in
  is_gpio_available (run_calls calls g) = false
  /\ _monitor_pins (Fixtures.reading <$> [1; 0; 1; 0]) (run_calls calls g)
     = (run_calls calls g, []).
Proof.
  intros g calls.
  apply (unavailable_service_never_fires g calls); reflexivity.
Defined.

(** X15.  Set-up.  When every configured line can be read, [_setup_gpio]
    records for each channel the value read on its pin and leaves the
    availability as it was; when the read of some configured pin raises,
    the service ends up unavailable. *)
Theorem setup_records_line_states (input : Z -> outcome Z) (g : GPIOService) :
  ((forall c p, (c, p) ∈ pins g -> returned (input p) = true) ->
   gpio_available (_setup_gpio input g) = gpio_available g
   /\ forall c p v,
        (c, p) ∈ pins g -> input p = Returns v ->
        pin_states (_setup_gpio input g) !! p = Some v)
  /\ ((exists c p, (c, p) ∈ pins g /\ returned (input p) = false) ->
      gpio_available (_setup_gpio input g) = false).
Proof.
  unfold _setup_gpio. split.
  - intros Hok. destruct (setup_pins_ok input (pins g) g Hok) as (Ha & Hst).
    split; [done|]. intros c p v Hin Hp. rewrite (Hst p v Hp).
    rewrite bool_decide_eq_true_2; [done|].
    apply list_elem_of_fmap. by exists (c, p).
  - apply setup_pins_failed.
Qed.

Lemma setup_records_line_states_witness :
  let g := _setup_gpio (Fixtures.reading 1) (new_service true 18 19) in
  gpio_available g = true
  /\ pin_states g !! 18 = Some 1
  /\ pin_states g !! 19 = Some 0.
Proof.
  intros g.
  destruct (setup_records_line_states (Fixtures.reading 1)
              (new_service true 18 19)) as (H & _).
  destruct H as (Ha & Hst).
  - intros c p _. unfold Fixtures.reading. by destruct (p =? 18).
  - split; [exact Ha|]. split.
    + apply (Hst "camera_1"); [|reflexivity].
      apply (bool_decide_unpack _). vm_compute. exact I.
    + apply (Hst "camera_2"); [|reflexivity].
      apply (bool_decide_unpack _). vm_compute. exact I.
Defined.

(** X16.  A channel without a registered handler is not watched: the
    poll loop never samples its line, never fires for it and never updates
    the state stored for its pin (no other channel sharing the pin). *)
Theorem unregistered_channel_not_watched (g : GPIOService)
    (inputs : list (Z -> outcome Z)) (c : string) (p : Z) :
  NoDup (pins g).*1 ->
  NoDup (pins g).*2 ->
  (c, p) ∈ pins g ->
  c ∉ callbacks g ->
  let r := _monitor_pins inputs g in
  samples_of c r.2 = []
  /\ fired_count c r.2 = O
  /\ pin_states r.1 !! p = pin_states g !! p.
Proof.
  intros Hn1 Hn2 Hin Hc.
  assert (Hpins : forall c' p', (c', p') ∈ pins g -> c' ≠ c -> p' ≠ p).
  { intros c' p' Hin' Hne ->.
    apply list_elem_of_lookup in Hin as [i Hi].
    apply list_elem_of_lookup in Hin' as [j Hj].
    assert (i = j).
    { eapply (NoDup_lookup _ _ _ p Hn2); rewrite list_lookup_fmap.
      - by rewrite Hi. - by rewrite Hj. }
    subst. congruence. }
  clear Hn1 Hn2 Hin. revert g Hc Hpins.
  induction inputs as [|input inputs IH]; intros g Hc Hpins r; [done|].
  subst r. simpl. destruct (monitoring g); [|done].
  destruct (scan_pins_unregistered input (pins g) c p g Hc Hpins)
    as (H1 & H2 & H3).
  destruct (scan_pins_keeps input (pins g) g) as (Hk & Hcb & _).
  destruct (scan_pins input (pins g) g) as [g1 evs1]. simpl in *.
  destruct (IH g1) as (H4 & H5 & H6); [by rewrite Hcb|by rewrite Hk|].
  destruct (_monitor_pins inputs g1) as [g2 evs2]. simpl in *.
  rewrite fired_count_app, samples_of_app, H1, H2, H4, H5, H6. done.
Qed.

Lemma unregistered_channel_not_watched_witness :
  let g := start_monitoring
             (register_callback "camera_1"
                (_setup_gpio (fun _ => Returns 1) (new_service true 18 19))) in
  let r := _monitor_pins ((fun _ _ => Returns 0) <$> [1; 2; 3]) g in
  fired_count "camera_1" r.2 = 1%nat
  /\ samples_of "camera_2" r.2 = []
  /\ fired_count "camera_2" r.2 = O
  /\ pin_states r.1 !! 19 = Some 1.
Proof.
  intros g r. split; [reflexivity|].
  destruct (unregistered_channel_not_watched g
              ((fun _ _ => Returns 0) <$> [1; 2; 3]) "camera_2" 19)
    as (H1 & H2 & H3).
  - apply (bool_decide_unpack _). vm_compute. exact I.
  - apply (bool_decide_unpack _). vm_compute. exact I.
  - apply (bool_decide_unpack _). vm_compute. exact I.
  - apply (bool_decide_unpack _). vm_compute. exact I.
  - fold r in H1, H2, H3. split; [exact H1|]. split; [exact H2|].
    rewrite H3. reflexivity.
Defined.

(** ** The trigger server: which camera a command selects *)

Section Trigger.

Lemma contains_prefix needle hay :
  String.prefix needle hay = true -> contains needle hay = true.
Proof. intros H. destruct hay; cbn [contains]; by rewrite H. Qed.

Lemma contains_app needle pre post :
  contains needle (pre +:+ needle +:+ post) = true.
Proof.
  induction pre as [|c pre IH].
  - change (EmptyString +:+ needle +:+ post) with (needle +:+ post).
    apply contains_prefix, prefix_append.
  - rewrite append_cons. cbn [contains]. rewrite IH. apply orb_true_r.
Qed.

Lemma lower_app a b : lower (a +:+ b) = lower a +:+ lower b.
Proof.
  induction a as [|c a IH]; [done|].
  rewrite append_cons. simpl. by rewrite IH, append_cons.
Qed.

End Trigger.

(** X17.  The command is matched without regard to letter case and the
    token may stand anywhere in it.  A command that holds [camera_1] or
    [rfid_1] selects camera 1, even when it names camera 2 as well; one
    that holds [camera_2] or [rfid_2] and no token of camera 1 selects
    camera 2. *)
Theorem trigger_token_selects_camera (pre tok post : string) :
  ((lower tok = "camera_1" \/ lower tok = "rfid_1") ->
   select_camera (pre +:+ tok +:+ post) = Camera1)
  /\ ((lower tok = "camera_2" \/ lower tok = "rfid_2") ->
      contains "camera_1" (lower (pre +:+ tok +:+ post)) = false ->
      contains "rfid_1" (lower (pre +:+ tok +:+ post)) = false ->
      select_camera (pre +:+ tok +:+ post) = Camera2).
Proof.
  unfold select_camera. rewrite !lower_app. split.
  - intros [-> | ->]; rewrite contains_app; [done|].
    by rewrite orb_true_r.
  - intros Htok -> ->. simpl.
    destruct Htok as [-> | ->]; rewrite contains_app; [done|].
    by rewrite orb_true_r.
Qed.

Lemma trigger_token_selects_camera_witness :
  select_camera "fire CAMERA_2, then Camera_1 please" = Camera1
  /\ select_camera "trigger RFID_2 now" = Camera2.
Proof.
  split.
  - apply (proj1 (trigger_token_selects_camera
                    "fire CAMERA_2, then " "Camera_1" " please")).
    by left.
  - apply (proj2 (trigger_token_selects_camera "trigger " "RFID_2" " now"));
      [by right|reflexivity..].
Defined.

(** ** Cleaning the backup directory *)

Section Cleanup.


Lemma cleanup_entry_rest cutoff bd w name :
  w_ledger (cleanup_entry cutoff bd w name) = w_ledger w.
Proof.
  unfold cleanup_entry, Os.remove.
  destruct (w_files w !! join bd name) as [s0|]; [|done].
  by destruct (st_mtime s0 <? cutoff).
Qed.


End Cleanup.



(** ** Forcing the upload of everything *)

Lemma filter_none {A} (P : A -> Prop) `{!forall x, Decision (P x)}
    (l : list A) :
  (forall x, x ∈ l -> ~ P x) -> filter P l = [].
Proof.
  induction l as [|x l IH]; intros Hno; [done|].
  rewrite filter_cons_False by (apply Hno; by left).
  apply IH. intros y Hy. apply Hno. by right.
Qed.

Section ForceAll.
Context {U : Type}.
Variable upload : string -> U -> upload_result * U.
Hypothesis healthy : forall path u, succeeded (upload path u).1 = true.

Lemma healthy_answers paths : forall u,
  Forall (fun r => succeeded r = true) (upload_answers upload paths u).
Proof.
  induction paths as [|p paths IH]; intros u; simpl; [constructor|].
  pose proof (healthy p u) as H.
  destruct (upload p u) as [r u']. constructor; [done|apply IH].
Qed.

Lemma marked_names_all queue : forall answers,
  length answers = length queue ->
  Forall (fun r => succeeded r = true) answers ->
  marked_names queue answers = filename <$> queue.
Proof.
  unfold marked_names.
  induction queue as [|img queue IH]; intros [|r answers] Hlen Hall;
    try done.
  apply Forall_cons in Hall as [Hr Hall]. simpl. rewrite Hr.
  rewrite IH; [done|simpl in Hlen; lia|done].
Qed.

Lemma upload_answers_length paths : forall u,
  length (upload_answers upload paths u) = length paths.
Proof.
  induction paths as [|p paths IH]; intros u; simpl; [done|].
  destruct (upload p u) as [r u']. simpl. by rewrite IH.
Qed.

End ForceAll.

(** X19.  With an uploader that gets every file through, one call of
    the force-upload route (services set, network up) uploads every
    pending entry, however many there are: it reports as many uploads as
    there were pending entries and no failure, and leaves nothing
    pending. *)
Theorem force_upload_drains_everything {U : Type}
    (upload : string -> U -> upload_result * U) (a : app U)
    (sm : LocalStorageManager) (u : U) :
  (forall path u, succeeded (upload path u).1 = true) ->
  storage_manager a = Some sm ->
  uploader a = Some u ->
  exists sm',
    (force_upload upload true a).1
      = ForceUploadDone (Z.of_nat (length (get_upload_queue sm))) 0
          (get_image_count sm)
    /\ storage_manager (force_upload upload true a).2 = Some sm'
    /\ images sm' = images sm
    /\ get_upload_queue sm' = [].
Proof.
  intros Hok Hsm Hu. unfold force_upload. rewrite Hsm, Hu. simpl.
  destruct (force_loop_spec upload (get_upload_queue sm) a sm u 0 0 Hsm Hu)
    as (a' & sm' & Hrun & Hsm' & Himg & Hset & _).
  pose proof (healthy_answers upload Hok (filepath <$> get_upload_queue sm) u)
    as Hall.
  rewrite Hrun. simpl. rewrite Hsm'. exists sm'.
  rewrite (filter_all _ _ Hall).
  assert (Hnone : filter (fun r => succeeded r = false)
                    (upload_answers upload (filepath <$> get_upload_queue sm) u)
                  = []).
  { clear -Hall. induction Hall as [|r l Hr _ IH]; [done|].
    rewrite filter_cons_False by (by rewrite Hr). done. }
  rewrite Hnone, upload_answers_length, length_fmap.
  unfold get_image_count. rewrite Himg.
  split_and!; [done..|].
  rewrite marked_names_all in Hset
    by (by rewrite ?upload_answers_length, ?length_fmap).
  unfold get_upload_queue at 1. rewrite Himg.
  apply filter_none.
  intros img Himg'. unfold is_uploaded. rewrite bool_decide_eq_false.
  intros Hn. apply Hn. rewrite Hset.
  destruct (decide (filename img ∈ uploaded_images sm)) as [|Hnot];
    [set_solver|].
  apply elem_of_union_l, elem_of_list_to_set, list_elem_of_fmap.
  exists img. split; [done|]. unfold get_upload_queue.
  apply list_elem_of_filter. split; [|done].
  unfold is_uploaded. by apply bool_decide_eq_false.
Qed.

Lemma force_upload_drains_everything_witness :
  let st := run_ops [Insert "images/a.jpg"; Insert "images/b.jpg";
                     Insert "images/c.jpg"; Insert "images/d.jpg";
                     Insert "images/e.jpg"; Insert "images/f.jpg"]
              (Fixtures.empty_manager 50,
               Fixtures.disk Fixtures.six_files None) in
  let a := MoreFixtures.unit_app st.1 st.2 in
  exists sm',
    (force_upload MoreFixtures.healthy true a).1 = ForceUploadDone 6 0 6
    /\ storage_manager (force_upload MoreFixtures.healthy true a).2 = Some sm'
    /\ get_upload_queue sm' = [].
Proof.
  intros st a.
  destruct (force_upload_drains_everything MoreFixtures.healthy a st.1 tt)
    as (sm' & H1 & H2 & _ & H4); [done|reflexivity|reflexivity|].
  exists sm'. split; [rewrite H1; reflexivity|]. split; assumption.
Defined.

(** ** The answer of [add_image] *)

(** X20.  [add_image] of a path on which [os.stat] returns answers
    [True] exactly when the capacity is not negative.  It then puts the new
    entry at the head and keeps the first [max_images] entries, however
    long the queue was (a queue loaded from a directory that holds more
    files than the capacity is cut at the first insert); under a negative
    capacity it leaves the queue empty. *)
Theorem add_image_answer (path : string) (self : LocalStorageManager)
    (w : world) (s : stat_result) :
  Os.stat w path = Returns s ->
  ((add_image path self w).1.1 = true <-> 0 <= max_images self)
  /\ (0 <= max_images self ->
      images (add_image path self w).1.2
      = take (Z.to_nat (max_images self))
          (make_info (basename path) path s :: images self))
  /\ (max_images self < 0 -> images (add_image path self w).1.2 = []).
Proof.
  intros Hstat.
  assert (Hs : w_files w !! path = Some s).
  { unfold Os.stat in Hstat. destruct (w_files w !! path); congruence. }
  assert (Hex : Os.path_exists w path = true).
  { unfold Os.path_exists. rewrite bool_decide_eq_true_2; eauto. }
  split_and!.
  - destruct (decide (0 <= max_images self)) as [Hcap|Hcap].
    + by destruct (add_image_existing path self w s Hcap Hs) as (w' & -> & _).
    + destruct (add_image_negative_capacity path self w) as (-> & _);
        [lia|done|]. split; [done|]. intros ?. lia.
  - intros Hcap.
    by destruct (add_image_existing path self w s Hcap Hs) as (w' & -> & _).
  - intros Hcap.
    by destruct (add_image_negative_capacity path self w) as (_ & ->).
Qed.

Lemma add_image_answer_witness :
  let w := Fixtures.disk
             (<["captures/x.jpg" := Fixtures.file_at 9]> Fixtures.six_files)
             None in
  exists sm,
    __init__ Fixtures.no_json 2 "images" w = Returns sm
    /\ length (images sm) = 6%nat
    /\ (add_image "captures/x.jpg" sm w).1.1 = true
    /\ filenames (add_image "captures/x.jpg" sm w).1.2 = ["x.jpg"; "f.jpg"].
Proof.
  intros w. eexists. split; [reflexivity|]. split; [reflexivity|].
  match goal with
  | |- (add_image ?p ?sm ?w).1.1 = true /\ _ =>
      destruct (add_image_answer p sm w (Fixtures.file_at 9))
        as (Hiff & Himgs & _); [reflexivity|]
  end.
  split.
  - apply Hiff. simpl. lia.
  - unfold filenames. rewrite Himgs; [reflexivity|simpl; lia].
Defined.
